(** * traefik_route: the relation interface library of traefik-route-k8s

    A shallow embedding of [lib/charms/traefik_route_k8s/v0/traefik_route.py]
    together with the parts of its environment that the library calls:
    Python's [json] module ([json.dumps] with [indent=2], [json.loads]) and
    the operator framework's model (units, applications, relations and their
    databags, event sources and observers).

    Values range over the JSON data model: [None], booleans, integers,
    strings, lists and dictionaries with string keys; an argument of the
    library may also be an object that [json.dumps] refuses.  Characters are code
    points below 256.  JSON texts that denote a value outside this domain
    (fractions, exponents, [NaN], [Infinity], [\u] escapes above [00ff]) are
    reported by the parser as [PUnsupported]: the model makes no statement
    about them. *)

From Stdlib Require Import ZArith List Ascii String Lia Bool.
From Stdlib Require Import DecimalFacts DecimalPos DecimalZ.
From stdpp Require Import gmap strings list fin_maps.

Open Scope Z_scope.
Set Warnings "-clear-no-such-hyp".

(** ** Exceptions

    The exception classes the library declares ([UnauthorizedError],
    [TraefikNotReadyError]) and the built-in ones its calls can raise.
    [Unmodelled] is no Python exception: it marks an execution that left
    the modelled domain. *)
Inductive exn : Type :=
| UnauthorizedError
| TraefikNotReadyError
| AttributeError
| KeyError
| TypeError
| ValueError
| JSONDecodeError
| Unmodelled.

(** ** Python values of the JSON data model *)

Module Json.

#[warnings="-register-all"]
Inductive json : Type :=
| JNull
| JBool (b : bool)
| JInt (z : Z)
| JStr (s : string)
| JArr (l : list json)
| JObj (m : list (string * json)).

(** A Python [dict] keeps its keys in insertion order and holds each key
    once.  [dict_set] is [d[k] = v]; [dict_get] is [d.get(k)] with [None]
    for a missing key left to the caller. *)
Fixpoint dict_set (k : string) (v : json) (d : list (string * json))
  : list (string * json) :=
  match d with
  | [] => [(k, v)]
  | (k', v') :: d' =>
      if String.eqb k k' then (k, v) :: d' else (k', v') :: dict_set k v d'
  end.

Fixpoint dict_get (k : string) (d : list (string * json)) : option json :=
  match d with
  | [] => None
  | (k', v') :: d' => if String.eqb k k' then Some v' else dict_get k d'
  end.

(** [dict(pairs)] *)
Definition dict_of_pairs (pairs : list (string * json)) : list (string * json) :=
  fold_left (fun d kv => dict_set (fst kv) (snd kv) d) pairs [].

(** The representation invariant of the embedding: every dictionary inside
    the value holds each key once. *)
Fixpoint wf_json (v : json) : Prop :=
  match v with
  | JArr l => fold_right (fun x acc => wf_json x /\ acc) True l
  | JObj m =>
      NoDup (map fst m) /\
      fold_right (fun kv acc => wf_json (snd kv) /\ acc) True m
  | _ => True
  end.

(** *** json.dumps(data, indent=2) *)

Definition chars (s : string) : list ascii := list_ascii_of_string s.

Definition dquote : ascii := "034"%char.
Definition backslash : ascii := "\"%char.
Definition newline : ascii := "010"%char.
Definition space : ascii := " "%char.

Definition hexdigit (n : N) : ascii :=
  if (n <? 10)%N then ascii_of_N (48 + n) else ascii_of_N (87 + n).

(** [ESCAPE_ASCII] and [ESCAPE_DCT] of json.encoder: the quote, the
    backslash and every character outside [' '..'~'] is escaped. *)
Definition escape_char (c : ascii) : list ascii :=
  let n := N_of_ascii c in
  if (n =? 34)%N then [backslash; dquote]
  else if (n =? 92)%N then chars "\\"
  else if (n =? 8)%N then chars "\b"
  else if (n =? 12)%N then chars "\f"
  else if (n =? 10)%N then chars "\n"
  else if (n =? 13)%N then chars "\r"
  else if (n =? 9)%N then chars "\t"
  else if ((n <? 32) || (126 <? n))%N then
    chars "\u00" ++ [hexdigit (n / 16); hexdigit (n mod 16)]
  else [c].

Definition encode_basestring_ascii (s : string) : list ascii :=
  dquote :: flat_map escape_char (chars s) ++ [dquote].

Definition digit_char (d : N) : ascii := ascii_of_N (48 + d).

Fixpoint uint_chars (u : Decimal.uint) : list ascii :=
  match u with
  | Decimal.Nil => []
  | Decimal.D0 u' => digit_char 0 :: uint_chars u'
  | Decimal.D1 u' => digit_char 1 :: uint_chars u'
  | Decimal.D2 u' => digit_char 2 :: uint_chars u'
  | Decimal.D3 u' => digit_char 3 :: uint_chars u'
  | Decimal.D4 u' => digit_char 4 :: uint_chars u'
  | Decimal.D5 u' => digit_char 5 :: uint_chars u'
  | Decimal.D6 u' => digit_char 6 :: uint_chars u'
  | Decimal.D7 u' => digit_char 7 :: uint_chars u'
  | Decimal.D8 u' => digit_char 8 :: uint_chars u'
  | Decimal.D9 u' => digit_char 9 :: uint_chars u'
  end.

(** [int.__repr__] *)
Definition int_repr (z : Z) : list ascii :=
  match Z.to_int z with
  | Decimal.Pos u => uint_chars u
  | Decimal.Neg u => "-"%char :: uint_chars u
  end.

(** ['\n' + _indent * _current_indent_level] with [_indent = ' ' * 2] *)
Definition newline_indent (level : nat) : list ascii :=
  newline :: repeat space (2 * level).

(** [_iterencode] with its helpers [_iterencode_list] and
    [_iterencode_dict], at indent 2, item separator [","] and key
    separator [": "].  The first item follows the opening bracket and a
    newline; every later one follows the separator and a newline. *)
Fixpoint _iterencode (level : nat) (v : json) : list ascii :=
  match v with
  | JNull => chars "null"
  | JBool true => chars "true"
  | JBool false => chars "false"
  | JInt z => int_repr z
  | JStr s => encode_basestring_ascii s
  | JArr [] => chars "[]"
  | JArr (x :: l) =>
      "["%char :: newline_indent (S level) ++ _iterencode (S level) x ++
      flat_map (fun y =>
                  ","%char :: newline_indent (S level) ++
                  _iterencode (S level) y) l ++
      newline_indent level ++ ["]"%char]
  | JObj [] => chars "{}"
  | JObj (kx :: m) =>
      "{"%char :: newline_indent (S level) ++
      encode_basestring_ascii (fst kx) ++ chars ": " ++
      _iterencode (S level) (snd kx) ++
      flat_map (fun ky =>
                  ","%char :: newline_indent (S level) ++
                  encode_basestring_ascii (fst ky) ++ chars ": " ++
                  _iterencode (S level) (snd ky)) m ++
      newline_indent level ++ ["}"%char]
  end.

(** The text of a value of the data model. *)
Definition json_dumps (v : json) : string :=
  string_of_list_ascii (_iterencode 0 v).

(** A Python object handed to the library: a value of the JSON data
    model, or an object that [json.dumps] refuses.  [Unserializable] is a
    set, bytes, an instance of a class, or a container that holds one
    ([TypeError]); [Circular] is a container that holds itself
    ([ValueError]). *)
Inductive pyobject : Type :=
| Json (v : json)
| Unserializable
| Circular.

(** [json.dumps(data, indent=2)]: the text, or the exception; nothing is
    returned when an object inside [data] is refused. *)
Definition dumps (data : pyobject) : exn + string :=
  match data with
  | Json v => inr (json_dumps v)
  | Unserializable => inl TypeError
  | Circular => inl ValueError
  end.

(** *** json.loads(data) *)

(** Outcome of a scanner on a text: a value and the unread rest of the
    text; [json.JSONDecodeError]; a text outside the modelled domain; or an
    exhausted recursion budget. *)
Inductive presult (A : Type) : Type :=
| POk (a : A) (rest : list ascii)
| PErr
| PUnsupported
| PFuel.
Arguments POk {A} a rest.
Arguments PErr {A}.
Arguments PUnsupported {A}.
Arguments PFuel {A}.

Definition pbind {A B} (r : presult A) (k : A -> list ascii -> presult B)
  : presult B :=
  match r with
  | POk a rest => k a rest
  | PErr => PErr
  | PUnsupported => PUnsupported
  | PFuel => PFuel
  end.

Definition pmap {A B} (f : A -> B) (r : presult A) : presult B :=
  pbind r (fun a rest => POk (f a) rest).

(** [WHITESPACE = [ \t\n\r]*] *)
Definition is_ws (c : ascii) : bool :=
  let n := N_of_ascii c in
  ((n =? 32) || (n =? 9) || (n =? 10) || (n =? 13))%N.

Fixpoint skip_ws (s : list ascii) : list ascii :=
  match s with
  | c :: s' => if is_ws c then skip_ws s' else s
  | [] => []
  end.

Fixpoint strip_prefix (p s : list ascii) : option (list ascii) :=
  match p, s with
  | [], _ => Some s
  | a :: p', c :: s' => if Ascii.eqb a c then strip_prefix p' s' else None
  | _ :: _, [] => None
  end.

Definition hexval (c : ascii) : option N :=
  let n := N_of_ascii c in
  if ((48 <=? n) && (n <=? 57))%N then Some (n - 48)%N
  else if ((97 <=? n) && (n <=? 102))%N then Some (n - 87)%N
  else if ((65 <=? n) && (n <=? 70))%N then Some (n - 55)%N
  else None.

(** [_decode_uXXXX] *)
Definition decode_uXXXX (a b c d : ascii) : option N :=
  match hexval a, hexval b, hexval c, hexval d with
  | Some x3, Some x2, Some x1, Some x0 =>
      Some (((x3 * 16 + x2) * 16 + x1) * 16 + x0)%N
  | _, _, _, _ => None
  end.

(** [BACKSLASH] of json.decoder *)
Definition unescape (e : ascii) : option ascii :=
  let n := N_of_ascii e in
  if (n =? 34)%N then Some dquote
  else if (n =? 92)%N then Some backslash
  else if (n =? 47)%N then Some "/"%char
  else if (n =? 98)%N then Some "008"%char
  else if (n =? 102)%N then Some "012"%char
  else if (n =? 110)%N then Some "010"%char
  else if (n =? 114)%N then Some "013"%char
  else if (n =? 116)%N then Some "009"%char
  else None.

(** [scanstring(s, end, strict=True)]: the text starts just after the
    opening quote. *)
Fixpoint scanstring (s : list ascii) : presult string :=
  match s with
  | [] => PErr
  | c :: s' =>
      if Ascii.eqb c dquote then POk EmptyString s'
      else if Ascii.eqb c backslash then
        match s' with
        | [] => PErr
        | e :: s'' =>
            if Ascii.eqb e "u" then
              match s'' with
              | h3 :: h2 :: h1 :: h0 :: s3 =>
                  match decode_uXXXX h3 h2 h1 h0 with
                  | Some n =>
                      if (n <? 256)%N
                      then pmap (String (ascii_of_N n)) (scanstring s3)
                      else PUnsupported
                  | None => PErr
                  end
              | _ => PErr
              end
            else
              match unescape e with
              | Some ch => pmap (String ch) (scanstring s'')
              | None => PErr
              end
        end
      else if (N_of_ascii c <? 32)%N then PErr
      else pmap (String c) (scanstring s')
  end.

Definition digit_of (c : ascii) : option (Decimal.uint -> Decimal.uint) :=
  match N_of_ascii c with
  | 48%N => Some Decimal.D0
  | 49%N => Some Decimal.D1
  | 50%N => Some Decimal.D2
  | 51%N => Some Decimal.D3
  | 52%N => Some Decimal.D4
  | 53%N => Some Decimal.D5
  | 54%N => Some Decimal.D6
  | 55%N => Some Decimal.D7
  | 56%N => Some Decimal.D8
  | 57%N => Some Decimal.D9
  | _ => None
  end.

Definition is_digit (c : ascii) : bool :=
  match digit_of c with Some _ => true | None => false end.

Fixpoint read_digits (s : list ascii) : Decimal.uint * list ascii :=
  match s with
  | [] => (Decimal.Nil, [])
  | c :: s' =>
      match digit_of c with
      | Some d => let (u, r) := read_digits s' in (d u, r)
      | None => (Decimal.Nil, s)
      end
  end.

Definition starts_digit (s : list ascii) : bool :=
  match s with c :: _ => is_digit c | [] => false end.

(** The groups [(\.\d+)?] and [([eE][-+]?\d+)?] of [NUMBER_RE]. *)
Definition has_frac (s : list ascii) : bool :=
  match s with
  | c :: r => Ascii.eqb c "." && starts_digit r
  | [] => false
  end.

Definition has_exp (s : list ascii) : bool :=
  match s with
  | c :: r =>
      (Ascii.eqb c "e" || Ascii.eqb c "E") &&
      match r with
      | g :: r' =>
          if Ascii.eqb g "+" || Ascii.eqb g "-" then starts_digit r'
          else is_digit g
      | [] => false
      end
  | [] => false
  end.

(** The integer group of [NUMBER_RE]: a lone zero, or a nonzero digit
    followed by digits. *)
Definition match_int (s : list ascii) : option (Decimal.uint * list ascii) :=
  match s with
  | [] => None
  | c :: r =>
      if Ascii.eqb c "0" then Some (Decimal.D0 Decimal.Nil, r)
      else if is_digit c then Some (read_digits s)
      else None
  end.

Definition is_prefix (p : string) (s : list ascii) : bool :=
  match strip_prefix (chars p) s with Some _ => true | None => false end.

(** The number branch of [_scan_once], followed by its [NaN], [Infinity]
    and [-Infinity] branches. *)
Definition scan_number (s : list ascii) : presult json :=
  let '(neg, s1) :=
    match s with
    | c :: r => if Ascii.eqb c "-" then (true, r) else (false, s)
    | [] => (false, s)
    end in
  match match_int s1 with
  | Some (u, r) =>
      if has_frac r || has_exp r then PUnsupported
      else POk (JInt (if neg then - Z.of_uint u else Z.of_uint u)) r
  | None =>
      if is_prefix "NaN" s || is_prefix "Infinity" s || is_prefix "-Infinity" s
      then PUnsupported
      else PErr
  end.

Definition scan_literal (lit : string) (v : json) (s : list ascii)
  : presult json :=
  match strip_prefix (chars lit) s with
  | Some r => POk v r
  | None => scan_number s
  end.

(** [_scan_once] with the loops of [JSONArray] ([array_items]) and of
    [JSONObject] ([object_pairs], entered just after the opening quote of
    a key). *)
Fixpoint scan_once (fuel : nat) (s : list ascii) {struct fuel} : presult json :=
  match fuel with
  | O => PFuel
  | S f =>
      match s with
      | [] => PErr
      | c :: s' =>
          if Ascii.eqb c dquote then pmap JStr (scanstring s')
          else if Ascii.eqb c "{" then
            match skip_ws s' with
            | [] => PErr
            | c1 :: r =>
                if Ascii.eqb c1 "}" then POk (JObj []) r
                else if Ascii.eqb c1 dquote
                then pmap (fun p => JObj (dict_of_pairs p)) (object_pairs f r)
                else PErr
            end
          else if Ascii.eqb c "[" then
            match skip_ws s' with
            | [] => PErr
            | c1 :: r =>
                if Ascii.eqb c1 "]" then POk (JArr []) r
                else pmap JArr (array_items f (c1 :: r))
            end
          else if Ascii.eqb c "n" then scan_literal "null" JNull s
          else if Ascii.eqb c "t" then scan_literal "true" (JBool true) s
          else if Ascii.eqb c "f" then scan_literal "false" (JBool false) s
          else scan_number s
      end
  end
with array_items (fuel : nat) (s : list ascii) {struct fuel}
  : presult (list json) :=
  match fuel with
  | O => PFuel
  | S f =>
      pbind (scan_once f s) (fun v r =>
        match skip_ws r with
        | [] => PErr
        | c :: r' =>
            if Ascii.eqb c "]" then POk [v] r'
            else if Ascii.eqb c ","
            then pmap (cons v) (array_items f (skip_ws r'))
            else PErr
        end)
  end
with object_pairs (fuel : nat) (s : list ascii) {struct fuel}
  : presult (list (string * json)) :=
  match fuel with
  | O => PFuel
  | S f =>
      pbind (scanstring s) (fun key r =>
        match skip_ws r with
        | [] => PErr
        | c :: r1 =>
            if Ascii.eqb c ":" then
              pbind (scan_once f (skip_ws r1)) (fun v r2 =>
                match skip_ws r2 with
                | [] => PErr
                | c2 :: r3 =>
                    if Ascii.eqb c2 "}" then POk [(key, v)] r3
                    else if Ascii.eqb c2 "," then
                      match skip_ws r3 with
                      | [] => PErr
                      | c3 :: r4 =>
                          if Ascii.eqb c3 dquote
                          then pmap (cons (key, v)) (object_pairs f r4)
                          else PErr
                      end
                    else PErr
                end)
            else PErr
        end)
  end.

(** [JSONDecoder.decode]: leading whitespace, one value, trailing
    whitespace, end of text. *)
Definition decode (s : list ascii) : presult json :=
  pbind (scan_once (2 * length s + 2) (skip_ws s)) (fun v r =>
    match skip_ws r with
    | [] => POk v []
    | _ :: _ => PErr
    end).

(** *** Notions used to state the round trip

    [need v] bounds the recursion budget that scanning the encoding of [v]
    takes; [is_delim rest] says that the text after an encoding cannot
    extend it; [opens_value s] that [s] starts a value; [encode_item] and
    [encode_pair] are the separator-led items of [_iterencode]. *)
Fixpoint need (v : json) : nat :=
  match v with
  | JArr l => S (fold_right (fun x acc => S (need x) + acc)%nat 0%nat l)
  | JObj m => S (fold_right (fun kv acc => S (need (snd kv)) + acc)%nat 0%nat m)
  | _ => 1%nat
  end.

Definition is_delim (rest : list ascii) : bool :=
  match rest with
  | [] => true
  | c :: _ => Ascii.eqb c "," || Ascii.eqb c newline
  end.

Definition opens_value (s : list ascii) : Prop :=
  match s with
  | [] => False
  | c :: _ => is_ws c = false /\ Ascii.eqb c "]" = false
  end.

Definition encode_item (level : nat) (y : json) : list ascii :=
  ","%char :: newline_indent level ++ _iterencode level y.

Definition encode_pair (level : nat) (ky : string * json) : list ascii :=
  ","%char :: newline_indent level ++
  encode_basestring_ascii (fst ky) ++ chars ": " ++ _iterencode level (snd ky).

Definition roundtrips (v : json) : Prop :=
  wf_json v -> forall level rest fuel,
  is_delim rest = true -> (need v <= fuel)%nat ->
  scan_once fuel (_iterencode level v ++ rest) = POk v rest.

(** A newline or a printable ASCII character, [' '] to ['~']. *)
Definition is_plain (c : ascii) : bool :=
  let n := N_of_ascii c in
  ((n =? 10) || ((32 <=? n) && (n <=? 126)))%N.

(** [json.loads(data)]: [None] is no text ([TypeError]); a text is
    decoded. *)
Definition json_loads (data : option string) : exn + json :=
  match data with
  | None => inl TypeError
  | Some s =>
      match decode (chars s) with
      | POk v _ => inr v
      | PErr => inl JSONDecodeError
      | PUnsupported => inl Unmodelled
      | PFuel => inl Unmodelled
      end
  end.

(** [d.get(key, default)]: only a [dict] has the attribute [get]. *)
Definition py_get (d : json) (key : string) (default : json) : exn + json :=
  match d with
  | JObj m =>
      match dict_get key m with
      | Some v => inr v
      | None => inr default
      end
  | _ => inl AttributeError
  end.

End Json.

(** ** The operator framework: units, applications, relations, databags *)

Module Ops.

(** [charm.unit]: its [name] and the answer of [is_leader()]. *)
Record Unit : Type := {
  unit_name : string;
  is_leader : bool
}.

(** A [Relation]: its endpoint name, its id, the remote application
    ([relation.app]) and [relation.data], the databags keyed by the name of
    the owning entity.  A databag maps field names to texts. *)
Record Relation : Type := {
  rel_name : string;
  rel_id : nat;
  rel_app : string;
  rel_data : gmap string (gmap string string)
}.

(** The charm as the library sees it: [charm.unit], [charm.app] and
    [charm.model.relations]. *)
Record Charm : Type := {
  unit : Unit;
  app : string;
  relations : gmap string (list Relation)
}.

(** Computations over the charm's state that may raise. *)
Definition M (A : Type) : Type := Charm -> (exn + A) * Charm.

Definition ret {A} (a : A) : M A := fun c => (inr a, c).
Definition raise {A} (e : exn) : M A := fun c => (inl e, c).
Definition bind {A B} (m : M A) (k : A -> M B) : M B :=
  fun c =>
    match m c with
    | (inr a, c') => k a c'
    | (inl e, c') => (inl e, c')
    end.
Definition get_charm : M Charm := fun c => (inr c, c).
Definition lift {A} (r : exn + A) : M A := fun c => (r, c).

(** [databag[key] = value] on the databag object reached as
    [charm.model.relations[endpoint][0].data[owner]]; the caller holds the
    object, so the path exists. *)
Definition setitem_in_relation (owner key value : string) (r : Relation)
  : Relation :=
  {| rel_name := rel_name r;
     rel_id := rel_id r;
     rel_app := rel_app r;
     rel_data := alter (insert key value) owner (rel_data r) |}.

Definition databag_setitem (endpoint owner key value : string) : M () :=
  fun c =>
    (inr (),
     {| unit := unit c;
        app := app c;
        relations :=
          alter (fun rs =>
                   match rs with
                   | r :: rs' => setitem_in_relation owner key value r :: rs'
                   | [] => []
                   end) endpoint (relations c) |}).

(** The state in which [bag] is the databag of [owner] in [r], the first
    relation of the endpoint, the later ones being [rs]. *)
Definition with_databag (endpoint owner : string) (r : Relation)
    (rs : list Relation) (bag : gmap string string) (c : Charm) : Charm :=
  {| unit := unit c;
     app := app c;
     relations :=
       <[endpoint :=
           {| rel_name := rel_name r;
              rel_id := rel_id r;
              rel_app := rel_app r;
              rel_data := <[owner := bag]> (rel_data r) |} :: rs]>
         (relations c) |}.

(** *** Event sources and observers

    [framework.observe(source, handler)] appends to the observers of the
    source; [source.emit(relation)] builds one event carrying the relation
    and calls the observers of the source in registration order.  Handlers
    of the charm and of glue code are opaque: the trace records that they
    were called. *)
Inductive EventSource : Type := on_ready | on_request.

Record RelationEvent : Type := { relation_of : Relation }.

Inductive Handler : Type :=
| Provider_emit_request_event
| Charm_handler (name : string).

Inductive TraceItem : Type :=
| Emitted (source : EventSource) (event : RelationEvent)
| Handled (name : string) (source : EventSource) (event : RelationEvent).

Record Framework : Type := {
  ready_observers : list Handler;
  request_observers : list string;
  trace : list TraceItem
}.

Definition record (item : TraceItem) (fw : Framework) : Framework :=
  {| ready_observers := ready_observers fw;
     request_observers := request_observers fw;
     trace := trace fw ++ [item] |}.

Definition observe_ready (h : Handler) (fw : Framework) : Framework :=
  {| ready_observers := ready_observers fw ++ [h];
     request_observers := request_observers fw;
     trace := trace fw |}.

End Ops.

(** ** The library: lib/charms/traefik_route_k8s/v0/traefik_route.py *)

Module TraefikRoute.
Import Json Ops.

Notation "'do' x <- m ;; k" := (bind m (fun x => k))
  (at level 10, x name, m at level 99, k at level 200).

Definition _deserialize_data (data : option string) : exn + json :=
  json_loads data.

Definition _serialize_data (data : pyobject) : exn + string :=
  dumps data.

(** *** TraefikRouteProvider *)

(** [self.on.request.emit(relation)] *)
Definition emit_request (relation : Relation) (fw : Framework) : Framework :=
  let event := {| relation_of := relation |} in
  fold_left (fun fw name => record (Handled name on_request event) fw)
            (request_observers fw)
            (record (Emitted on_request event) fw).

Definition _emit_request_event (event : RelationEvent) (fw : Framework)
  : Framework :=
  emit_request (relation_of event) fw.

(** The names of the event sources of [TraefikRouteProvider.on]:
    [request], which [TraefikRouteProviderEvents] declares, and the names
    its base class [CharmEvents] declares.  [CharmEvents] is the host
    framework's: its names are a parameter. *)
Definition declared_events (charm_events : list string) : list string :=
  "request" :: charm_events.

(** [self.on.ready]: the source when one of that name is declared. *)
Definition getattr_on_ready (charm_events : list string) : exn + EventSource :=
  if bool_decide ("ready" ∈ declared_events charm_events)
  then inr on_ready
  else inl AttributeError.

(** [TraefikRouteProvider.__init__]: the handler is registered once the
    source has been looked up. *)
Definition TraefikRouteProvider_init (charm_events : list string)
    (fw : Framework) : (exn + ()) * Framework :=
  match getattr_on_ready charm_events with
  | inl e => (inl e, fw)
  | inr _ => (inr (), observe_ready Provider_emit_request_event fw)
  end.

(** *** TraefikRouteRequirer

    The object keeps the endpoint name; [self._charm] is the state that
    the computations in [M] read and write. *)

Record TraefikRouteRequirer : Type := { _endpoint : string }.

(** The property [relation]. *)
Definition relation (self : TraefikRouteRequirer) (c : Charm)
  : option Relation :=
  match relations c !! _endpoint self with
  | Some (r :: _) => Some r
  | Some [] => None
  | None => None
  end.

(** [r.data], [r.app] and [data[owner]] on the value of [self.relation],
    which may be [None]. *)
Definition getattr_data (r : option Relation)
  : exn + gmap string (gmap string string) :=
  match r with
  | None => inl AttributeError
  | Some rel => inr (rel_data rel)
  end.

Definition getattr_app (r : option Relation) : exn + string :=
  match r with
  | None => inl AttributeError
  | Some rel => inr (rel_app rel)
  end.

Definition getitem (data : gmap string (gmap string string)) (owner : string)
  : exn + gmap string string :=
  match data !! owner with
  | Some bag => inr bag
  | None => inl KeyError
  end.

(** The property [proxied_endpoint]. *)
Definition proxied_endpoint (self : TraefikRouteRequirer) : M json :=
  do c <- get_charm ;;
  do data <- lift (getattr_data (relation self c)) ;;
  do owner <- lift (getattr_app (relation self c)) ;;
  do bag <- lift (getitem data owner) ;;
  let raw_data := bag !! "traefik_route" in
  do data <- lift (_deserialize_data raw_data) ;;
  do entry <- lift (py_get data (unit_name (unit c)) (JObj [])) ;;
  do endpoint <- lift (py_get entry "url" JNull) ;;
  ret endpoint.

(** Each assignment evaluates its right-hand side first: [config] is
    serialized and written before [ingress] is serialized. *)
Definition relay_ingress_request (self : TraefikRouteRequirer)
    (ingress config : pyobject) : M () :=
  do c <- get_charm ;;
  if negb (is_leader (unit c)) then raise UnauthorizedError
  else
    do data <- lift (getattr_data (relation self c)) ;;
    do app_databag <- lift (getitem data (app c)) ;;
    do config_text <- lift (_serialize_data config) ;;
    do written <- databag_setitem (_endpoint self) (app c) "config"
                    config_text ;;
    do ingress_text <- lift (_serialize_data ingress) ;;
    databag_setitem (_endpoint self) (app c) "ingress" ingress_text.

(** The publish postcondition in its strong form: after a publish by the
    leader, the databag of the caller's application holds the fields
    [config] and [ingress] and no other, and parsing them gives the
    arguments back. *)
Definition publish_leaves_exactly_two_fields : Prop :=
  forall (self : TraefikRouteRequirer) (ingress config : json)
         (c : Charm) (r : Relation) (d : gmap string string),
    wf_json ingress -> wf_json config ->
    is_leader (unit c) = true ->
    relation self c = Some r ->
    rel_data r !! app c = Some d ->
    exists c' r' d',
      relay_ingress_request self (Json ingress) (Json config) c
      = (inr (), c') /\
      relation self c' = Some r' /\
      rel_data r' !! app c' = Some d' /\
      dom d' = {[ "config"; "ingress" ]} /\
      _deserialize_data (d' !! "config") = inr config /\
      _deserialize_data (d' !! "ingress") = inr ingress.

End TraefikRoute.

(** ** Example states *)

Module Examples.
Import Json Ops TraefikRoute.

Definition self : TraefikRouteRequirer := {| _endpoint := "traefik_route" |}.

Definition a_relation (id : nat) (local remote : gmap string string)
  : Relation :=
  {| rel_name := "traefik_route";
     rel_id := id;
     rel_app := "traefik-k8s";
     rel_data := {[ "traefik-route-k8s" := local; "traefik-k8s" := remote ]} |}.

Definition a_charm (leader : bool) (rels : gmap string (list Relation))
  : Charm :=
  {| unit := {| unit_name := "traefik-route-k8s/0"; is_leader := leader |};
     app := "traefik-route-k8s";
     relations := rels |}.

Definition ingress : json :=
  JObj [("model", JStr "cos"); ("unit", JStr "prometheus-k8s/0")].

Definition config : json :=
  JObj [("rule", JStr "Host(`foo.bar/{{juju_unit}}`)")].

Definition a_url : string := "http://foo.bar/prometheus-k8s-0".

Definition routes : json :=
  JObj [("traefik-route-k8s/0", JObj [("url", JStr a_url)])].

Definition fresh_charm (leader : bool) : Charm :=
  a_charm leader {[ "traefik_route" := [a_relation 0 ∅ ∅] ]}.

Definition lonely_charm (leader : bool) : Charm := a_charm leader ∅.

(** The application databag already holds a field of the charm's own. *)
Definition crowded_charm : Charm :=
  a_charm true {[ "traefik_route" := [a_relation 0 {[ "other" := "x" ]} ∅] ]}.

(** The remote application has published the routes. *)
Definition routed_charm (raw : gmap string string) : Charm :=
  a_charm false {[ "traefik_route" := [a_relation 0 ∅ raw] ]}.

Definition two_relations_charm : Charm :=
  a_charm true
    {[ "traefik_route" := [a_relation 0 ∅ ∅; a_relation 1 ∅ ∅] ]}.

(** Routes for two units, the second one being this unit; the URL of the
    first is given as a number. *)
Definition two_routes : json :=
  JObj [("other/0", JObj [("url", JInt 8080)]);
        ("traefik-route-k8s/0", JObj [("url", JStr a_url); ("port", JInt 80)])].

(** The URL is given directly, without the inner mapping. *)
Definition flat_routes : json :=
  JObj [("traefik-route-k8s/0", JStr a_url)].

(** A second requirer, bound to another endpoint, and a charm with one
    relation on each endpoint. *)
Definition other_self : TraefikRouteRequirer :=
  {| _endpoint := "traefik_route_internal" |}.

Definition two_endpoints_charm : Charm :=
  a_charm true
    {[ "traefik_route" := [a_relation 0 ∅ ∅];
       "traefik_route_internal" := [a_relation 1 ∅ ∅] ]}.

(** The events that the [CharmEvents] of ops declares by name; those it
    defines per relation, storage and container carry the name of the
    relation, storage or container as a prefix. *)
Definition ops_charm_events : list string :=
  ["install"; "start"; "stop"; "remove"; "update_status"; "config_changed";
   "upgrade_charm"; "pre_series_upgrade"; "post_series_upgrade";
   "leader_elected"; "leader_settings_changed"; "collect_metrics"].

Definition a_framework : Framework :=
  {| ready_observers := [Charm_handler "log_ready"];
     request_observers := ["relay"; "audit"];
     trace := [] |}.

End Examples.

(** * Properties *)

Import Json Ops TraefikRoute.

(** ** The JSON round trip *)

Lemma pmap_ok {A B} (f : A -> B) a rest : pmap f (POk a rest) = POk (f a) rest.
Proof. reflexivity. Qed.

Lemma scanstring_escape_char c rest :
  scanstring (escape_char c ++ rest) = pmap (String c) (scanstring rest).
Proof.
  destruct c as [[] [] [] [] [] [] [] []]; reflexivity.
Qed.

Lemma scanstring_encode s rest :
  scanstring (flat_map escape_char (chars s) ++ dquote :: rest) = POk s rest.
Proof.
  induction s as [|c s IH]; [reflexivity|].
  change (chars (String c s)) with (c :: chars s).
  cbn [flat_map]. rewrite <- app_assoc, scanstring_escape_char, IH.
  reflexivity.
Qed.

Lemma read_digits_uint_chars u rest :
  starts_digit rest = false ->
  read_digits (uint_chars u ++ rest) = (u, rest).
Proof.
  intros Hr. induction u; cbn [uint_chars Datatypes.app];
    try (cbn [read_digits]; change (digit_of (digit_char _)) with (Some Decimal.D0) || idtac).
  all: try (cbn; rewrite IHu; reflexivity).
  destruct rest as [|c r]; [reflexivity|].
  cbn in Hr. unfold is_digit in Hr. cbn [read_digits].
  destruct (digit_of c); [discriminate|reflexivity].
Qed.


Lemma is_delim_number rest :
  is_delim rest = true ->
  starts_digit rest = false /\ has_frac rest = false /\ has_exp rest = false.
Proof.
  destruct rest as [|c r]; [easy|]. cbn [is_delim]. intros H.
  apply orb_true_iff in H as [H|H]; apply Ascii.eqb_eq in H; subst c; easy.
Qed.

Lemma to_uint_head p : forall d, Pos.to_uint p <> Decimal.D0 d.
Proof.
  intros d Hd.
  assert (Hn : Decimal.unorm (Pos.to_uint p) = Pos.to_uint p).
  { rewrite <- (DecimalPos.Unsigned.to_of (Pos.to_uint p)).
    rewrite DecimalPos.Unsigned.of_to. reflexivity. }
  rewrite Hd in Hn. unfold Decimal.unorm in Hn.
  destruct (Decimal.nzhead (Decimal.D0 d)) eqn:E;
    try (subst; exact (DecimalFacts.nzhead_nonzero _ _ E));
    try discriminate.
  injection Hn as <-. exact (DecimalPos.Unsigned.to_uint_nonzero p Hd).
Qed.

Lemma of_uint_to_uint p : Z.of_uint (Pos.to_uint p) = Z.pos p.
Proof. unfold Z.of_uint. rewrite DecimalPos.Unsigned.of_to. reflexivity. Qed.

Lemma match_int_to_uint p rest :
  starts_digit rest = false ->
  match_int (uint_chars (Pos.to_uint p) ++ rest) = Some (Pos.to_uint p, rest).
Proof.
  intros Hr. pose proof (to_uint_head p) as Hh.
  pose proof (DecimalPos.Unsigned.to_uint_nonnil p) as Hn.
  pose proof (read_digits_uint_chars (Pos.to_uint p) rest Hr) as Hd.
  destruct (Pos.to_uint p) as [|u|u|u|u|u|u|u|u|u|u]; try congruence;
    try (exfalso; exact (Hh _ eq_refl));
    cbn [uint_chars Datatypes.app] in *; unfold match_int;
    match goal with |- context [Ascii.eqb ?c "0"] =>
      change (Ascii.eqb c "0") with false; change (is_digit c) with true end;
    cbv iota; rewrite Hd; reflexivity.
Qed.

Lemma scan_number_int_repr z rest :
  is_delim rest = true ->
  scan_number (int_repr z ++ rest) = POk (JInt z) rest.
Proof.
  intros Hd. apply is_delim_number in Hd as (H1 & H2 & H3).
  destruct z as [|p|p]; unfold int_repr; cbn [Z.to_int].
  - change (uint_chars Decimal.zero ++ rest) with ("0"%char :: rest).
    unfold scan_number. change (Ascii.eqb "0" "-") with false. cbv iota.
    unfold match_int. change (Ascii.eqb "0" "0") with true. cbv iota.
    rewrite H2, H3. reflexivity.
  - pose proof (match_int_to_uint p rest H1) as Hm.
    pose proof (to_uint_head p) as Hh.
    pose proof (DecimalPos.Unsigned.to_uint_nonnil p) as Hn.
    unfold scan_number.
    assert (Hs : match uint_chars (Pos.to_uint p) ++ rest with
                 | [] => (false, uint_chars (Pos.to_uint p) ++ rest)
                 | c :: r => if Ascii.eqb c "-" then (true, r)
                             else (false, uint_chars (Pos.to_uint p) ++ rest)
                 end = (false, uint_chars (Pos.to_uint p) ++ rest)).
    { destruct (Pos.to_uint p); try congruence; reflexivity. }
    rewrite Hs, Hm, H2, H3. cbn [orb]. rewrite of_uint_to_uint. reflexivity.
  - pose proof (match_int_to_uint p rest H1) as Hm.
    unfold scan_number. cbn [Datatypes.app]. change (Ascii.eqb "-" "-") with true.
    cbv iota. rewrite Hm, H2, H3. cbn [orb]. rewrite of_uint_to_uint. reflexivity.
Qed.

Lemma scan_once_int_repr f z rest :
  scan_once (S f) (int_repr z ++ rest) = scan_number (int_repr z ++ rest).
Proof.
  destruct z as [|p|p]; unfold int_repr; cbn [Z.to_int]; [reflexivity| |reflexivity].
  pose proof (to_uint_head p) as Hh.
  pose proof (DecimalPos.Unsigned.to_uint_nonnil p) as Hn.
  destruct (Pos.to_uint p); try congruence; reflexivity.
Qed.


Lemma int_repr_opens z rest : opens_value (int_repr z ++ rest).
Proof.
  destruct z as [|p|p]; unfold int_repr; cbn [Z.to_int]; try (split; reflexivity).
  pose proof (DecimalPos.Unsigned.to_uint_nonnil p) as Hn.
  destruct (Pos.to_uint p); try congruence; split; reflexivity.
Qed.

Lemma iterencode_opens level v rest : opens_value (_iterencode level v ++ rest).
Proof.
  destruct v as [|[]|z|s|[|x l]|[|kx m]]; try (split; reflexivity).
  apply int_repr_opens.
Qed.

Lemma skip_ws_opens s : opens_value s -> skip_ws s = s.
Proof. destruct s as [|c s]; [easy|]. intros [H _]. cbn. now rewrite H. Qed.

Lemma skip_ws_newline_indent k s : skip_ws (newline_indent k ++ s) = skip_ws s.
Proof.
  unfold newline_indent. cbn [Datatypes.app skip_ws].
  change (is_ws newline) with true. cbv iota.
  induction (2 * k)%nat as [|n IH]; [reflexivity|]. cbn [repeat Datatypes.app skip_ws].
  change (is_ws space) with true. exact IH.
Qed.


Lemma json_ind' (P : json -> Prop) :
  P JNull -> (forall b, P (JBool b)) -> (forall z, P (JInt z)) ->
  (forall s, P (JStr s)) ->
  (forall l, Forall P l -> P (JArr l)) ->
  (forall m, Forall (fun kv => P (snd kv)) m -> P (JObj m)) ->
  forall v, P v.
Proof.
  intros Hnull Hbool Hint Hstr Harr Hobj. fix IH 1.
  intros [|b|z|s|l|m];
    [exact Hnull|apply Hbool|apply Hint|apply Hstr| |].
  - apply Harr. induction l as [|x l IHl]; constructor; [apply IH|exact IHl].
  - apply Hobj. induction m as [|[k x] m IHm]; constructor; [apply IH|exact IHm].
Qed.




Lemma items_delim level l k rest :
  is_delim (flat_map (encode_item level) l ++ newline_indent k ++ rest) = true.
Proof. destruct l; reflexivity. Qed.

Lemma pairs_delim level m k rest :
  is_delim (flat_map (encode_pair level) m ++ newline_indent k ++ rest) = true.
Proof. destruct m; reflexivity. Qed.

Lemma array_items_encode level rest : forall l x fuel,
  Forall roundtrips (x :: l) -> fold_right (fun x acc => wf_json x /\ acc) True (x :: l) ->
  (fold_right (fun x acc => S (need x) + acc) 0 (x :: l) <= fuel)%nat ->
  array_items fuel
    (_iterencode (S level) x ++ flat_map (encode_item (S level)) l ++
     newline_indent level ++ "]"%char :: rest) = POk (x :: l) rest.
Proof.
  induction l as [|y l IH]; intros x fuel Hrt Hwf Hfuel;
    destruct fuel as [|f]; try (cbn in Hfuel; lia);
    inversion Hrt as [|? ? Hx Hl]; subst; destruct Hwf as [Hwx Hwl];
    cbn [fold_right] in Hfuel; cbn [array_items].
  - rewrite (Hx Hwx) by (try apply (items_delim _ []); lia).
    cbn [pbind flat_map Datatypes.app]. rewrite skip_ws_newline_indent.
    reflexivity.
  - rewrite (Hx Hwx) by (try apply items_delim; lia).
    cbn [pbind flat_map]. unfold encode_item at 1. cbn [Datatypes.app skip_ws].
    change (is_ws ",") with false. cbv iota.
    change (Ascii.eqb "," "]") with false. change (Ascii.eqb "," ",") with true.
    cbv iota. rewrite <- !app_assoc, skip_ws_newline_indent.
    rewrite skip_ws_opens by apply iterencode_opens.
    rewrite IH; [reflexivity|assumption|assumption|].
    cbn [fold_right]. lia.
Qed.

Lemma encode_basestring_ascii_app k s :
  encode_basestring_ascii k ++ s =
  dquote :: flat_map escape_char (chars k) ++ dquote :: s.
Proof. unfold encode_basestring_ascii. cbn [Datatypes.app]. now rewrite <- app_assoc. Qed.

Lemma object_pairs_encode level rest : forall m kx fuel,
  Forall (fun kv => roundtrips (snd kv)) (kx :: m) ->
  fold_right (fun kv acc => wf_json (snd kv) /\ acc) True (kx :: m) ->
  (fold_right (fun kv acc => S (need (snd kv)) + acc) 0 (kx :: m) <= fuel)%nat ->
  object_pairs fuel
    (flat_map escape_char (chars (fst kx)) ++ dquote :: chars ": " ++
     _iterencode (S level) (snd kx) ++ flat_map (encode_pair (S level)) m ++
     newline_indent level ++ "}"%char :: rest) = POk (kx :: m) rest.
Proof.
  induction m as [|ky m IH]; intros [k x] fuel Hrt Hwf Hfuel;
    destruct fuel as [|f]; try (cbn in Hfuel; lia);
    inversion Hrt as [|? ? Hx Hl]; subst; destruct Hwf as [Hwx Hwl];
    cbn [fold_right fst snd] in *; cbn [object_pairs];
    rewrite scanstring_encode; cbn [pbind chars list_ascii_of_string Datatypes.app skip_ws];
    change (is_ws ":") with false; cbv iota;
    change (Ascii.eqb ":" ":") with true; cbv iota; cbn [skip_ws];
    change (is_ws " ") with true; cbv iota;
    rewrite skip_ws_opens by apply iterencode_opens.
  - rewrite (Hx Hwx) by (try apply (pairs_delim _ []); lia).
    cbn [pbind flat_map Datatypes.app]. rewrite skip_ws_newline_indent.
    reflexivity.
  - rewrite (Hx Hwx) by (try apply pairs_delim; lia).
    cbn [pbind flat_map]. unfold encode_pair at 1. cbn [Datatypes.app skip_ws].
    change (is_ws ",") with false. cbv iota.
    change (Ascii.eqb "," "}") with false. change (Ascii.eqb "," ",") with true.
    cbv iota. rewrite <- !app_assoc, skip_ws_newline_indent.
    rewrite encode_basestring_ascii_app. cbn [skip_ws].
    change (is_ws dquote) with false. cbv iota.
    change (Ascii.eqb dquote dquote) with true. cbv iota.
    rewrite IH; [reflexivity|assumption|assumption|].
    cbn [fold_right]. lia.
Qed.

Lemma dict_set_fresh k v d :
  k ∉ map fst d -> dict_set k v d = d ++ [(k, v)].
Proof.
  induction d as [|[k' v'] d IH]; intros Hk; [reflexivity|].
  cbn [dict_set map fst] in *. apply not_elem_of_cons in Hk as [Hne Hk].
  destruct (String.eqb_spec k k') as [->|_]; [congruence|].
  now rewrite IH.
Qed.

Lemma dict_of_pairs_app m : forall acc,
  NoDup (map fst (acc ++ m)) ->
  fold_left (fun d kv => dict_set (fst kv) (snd kv) d) m acc = acc ++ m.
Proof.
  induction m as [|[k v] m IH]; intros acc Hnd; cbn [fold_left].
  - now rewrite app_nil_r.
  - cbn [fst snd]. rewrite dict_set_fresh.
    + rewrite IH; rewrite <- app_assoc; [reflexivity|exact Hnd].
    + rewrite map_app in Hnd. apply NoDup_app in Hnd as (_ & Hd & _).
      intros Hin. apply (Hd k Hin). cbn. left.
Qed.

Lemma dict_of_pairs_NoDup m : NoDup (map fst m) -> dict_of_pairs m = m.
Proof. intros H. apply (dict_of_pairs_app m []). exact H. Qed.

Lemma scan_once_encode : forall v, roundtrips v.
Proof.
  induction v as [|b|z|s|l Hl|m Hm] using json_ind';
    intros Hwf level rest fuel Hd Hfuel;
    (destruct fuel as [|f]; [cbn in Hfuel; lia|]).
  - reflexivity.
  - destruct b; reflexivity.
  - cbn [_iterencode]. rewrite scan_once_int_repr. now apply scan_number_int_repr.
  - cbn [_iterencode]. rewrite encode_basestring_ascii_app.
    cbn [scan_once]. change (Ascii.eqb dquote dquote) with true. cbv iota.
    now rewrite scanstring_encode.
  - destruct l as [|x l]; [reflexivity|].
    cbn [_iterencode Datatypes.app scan_once].
    change (Ascii.eqb "[" dquote) with false.
    change (Ascii.eqb "[" "{") with false.
    change (Ascii.eqb "[" "[") with true. cbv iota.
    rewrite <- !app_assoc, skip_ws_newline_indent.
    change (fun y => ","%char :: newline_indent (S level) ++ _iterencode (S level) y)
      with (encode_item (S level)).
    change (["]"%char] ++ rest) with ("]"%char :: rest).
    pose proof (iterencode_opens (S level) x
      (flat_map (encode_item (S level)) l ++ newline_indent level ++ "]"%char :: rest)) as Ho.
    rewrite (skip_ws_opens _ Ho).
    pose proof (array_items_encode level rest l x f Hl Hwf) as Ha.
    cbn [need] in Hfuel. specialize (Ha ltac:(lia)).
    change (fun y => ","%char :: newline_indent (S level) ++ _iterencode (S level) y)
      with (encode_item (S level)).
    destruct (_iterencode (S level) x ++ _) as [|c r] eqn:E; [destruct Ho|].
    destruct Ho as [_ Hc]. rewrite Hc, Ha. reflexivity.
  - destruct m as [|kx m]; [reflexivity|]. destruct Hwf as [Hnd Hwf].
    cbn [_iterencode Datatypes.app scan_once].
    change (Ascii.eqb "{" dquote) with false.
    change (Ascii.eqb "{" "{") with true. cbv iota.
    rewrite <- !app_assoc, skip_ws_newline_indent.
    rewrite encode_basestring_ascii_app. cbn [skip_ws].
    change (is_ws dquote) with false. cbv iota.
    change (Ascii.eqb dquote "}") with false.
    change (Ascii.eqb dquote dquote) with true. cbv iota.
    pose proof (object_pairs_encode level rest m kx f Hm Hwf) as Ha.
    cbn [need] in Hfuel. specialize (Ha ltac:(lia)).
    change (fun ky => ","%char :: newline_indent (S level) ++
              encode_basestring_ascii (fst ky) ++ chars ": " ++
              _iterencode (S level) (snd ky))
      with (encode_pair (S level)).
    change (["}"%char] ++ rest) with ("}"%char :: rest).
    rewrite Ha. cbn [pmap pbind].
    now rewrite dict_of_pairs_NoDup.
Qed.

Lemma int_repr_length z : (1 <= length (int_repr z))%nat.
Proof.
  pose proof (int_repr_opens z []) as H. rewrite app_nil_r in H.
  destruct (int_repr z); [destruct H|cbn; lia].
Qed.

Lemma need_le_length : forall v level, (need v <= length (_iterencode level v))%nat.
Proof.
  induction v as [|b|z|s|l Hl|m Hm] using json_ind'; intros level.
  - cbn. lia.
  - destruct b; cbn; lia.
  - apply int_repr_length.
  - cbn [need _iterencode]. unfold encode_basestring_ascii. cbn [length].
    rewrite length_app. cbn. lia.
  - destruct l as [|x l]; [cbn; lia|].
    inversion Hl as [|? ? Hx Hl']; subst.
    cbn [need _iterencode fold_right length]. rewrite !length_app.
    specialize (Hx (S level)).
    assert (fold_right (fun x acc => S (need x) + acc) 0 l <=
            length (flat_map (fun y => ","%char :: newline_indent (S level) ++
                                       _iterencode (S level) y) l))%nat as Hs.
    { clear -Hl'. induction Hl' as [|y l Hy _ IH]; [cbn; lia|].
      cbn [fold_right flat_map]. rewrite length_app. cbn [length].
      rewrite length_app. specialize (Hy (S level)). lia. }
    cbn [length]. lia.
  - destruct m as [|kx m]; [cbn; lia|].
    inversion Hm as [|? ? Hx Hm']; subst.
    cbn [need _iterencode fold_right length]. rewrite !length_app.
    specialize (Hx (S level)).
    assert (fold_right (fun kv acc => S (need (snd kv)) + acc) 0 m <=
            length (flat_map (fun ky => ","%char :: newline_indent (S level) ++
                        encode_basestring_ascii (fst ky) ++ chars ": " ++
                        _iterencode (S level) (snd ky)) m))%nat as Hs.
    { clear -Hm'. induction Hm' as [|y l Hy _ IH]; [cbn; lia|].
      cbn [fold_right flat_map]. rewrite length_app. cbn [length].
      rewrite !length_app. specialize (Hy (S level)). lia. }
    cbn [length]. lia.
Qed.

Lemma chars_string_of_list_ascii l : chars (string_of_list_ascii l) = l.
Proof. apply list_ascii_of_string_of_list_ascii. Qed.

Lemma decode_iterencode v :
  wf_json v -> decode (_iterencode 0 v) = POk v [].
Proof.
  intros Hwf. unfold decode.
  pose proof (iterencode_opens 0 v []) as Ho. rewrite app_nil_r in Ho.
  rewrite (skip_ws_opens _ Ho).
  pose proof (scan_once_encode v Hwf 0%nat [] (2 * length (_iterencode 0 v) + 2)%nat
                eq_refl) as H.
  rewrite app_nil_r in H. rewrite H; [reflexivity|].
  pose proof (need_le_length v 0). lia.
Qed.

Theorem json_loads_dumps v :
  wf_json v -> json_loads (Some (json_dumps v)) = inr v.
Proof.
  intros Hwf. unfold json_loads, json_dumps.
  rewrite chars_string_of_list_ascii, decode_iterencode by exact Hwf.
  reflexivity.
Qed.

(** ** The scanner stays within its recursion budget *)

Lemma pmap_POk {A B} (f : A -> B) r b rest :
  pmap f r = POk b rest -> exists a, r = POk a rest /\ b = f a.
Proof. destruct r; try discriminate. cbn. intros [= <- <-]. eauto. Qed.

Lemma pmap_PFuel {A B} (f : A -> B) r : pmap f r = PFuel -> r = PFuel.
Proof. now destruct r. Qed.

Lemma skip_ws_length s : (length (skip_ws s) <= length s)%nat.
Proof.
  induction s as [|c s IH]; [easy|]. cbn [skip_ws].
  destruct (is_ws c); cbn [length]; lia.
Qed.

Lemma scanstring_shorter n : forall s v r,
  (length s <= n)%nat -> scanstring s = POk v r -> (length r < length s)%nat.
Proof.
  induction n as [|n IH]; intros s v r Hn H.
  - destruct s; [discriminate|cbn in Hn; lia].
  - destruct s as [|c s]; [discriminate|]. cbn [scanstring] in H.
    cbn [length] in Hn |- *.
    destruct (Ascii.eqb c dquote); [injection H as <- <-; lia|].
    destruct (Ascii.eqb c backslash).
    + destruct s as [|e s]; [discriminate|]. cbn [length] in Hn |- *.
      destruct (Ascii.eqb e "u").
      * destruct s as [|h3 [|h2 [|h1 [|h0 s]]]]; try discriminate.
        destruct (decode_uXXXX h3 h2 h1 h0) as [k|]; [|discriminate].
        destruct (k <? 256)%N; [|discriminate].
        apply pmap_POk in H as (w & H & _). cbn [length] in Hn |- *.
        apply IH in H; lia.
      * destruct (unescape e); [|discriminate].
        apply pmap_POk in H as (w & H & _). apply IH in H; lia.
    + destruct (N_of_ascii c <? 32)%N; [discriminate|].
      apply pmap_POk in H as (w & H & _). apply IH in H; lia.
Qed.

Lemma read_digits_length s : (length (snd (read_digits s)) <= length s)%nat.
Proof.
  induction s as [|c s IH]; [easy|]. cbn [read_digits].
  destruct (digit_of c); [|cbn; lia].
  destruct (read_digits s). cbn [snd length] in *. lia.
Qed.

Lemma match_int_shorter s u r :
  match_int s = Some (u, r) -> (length r < length s)%nat.
Proof.
  destruct s as [|c s]; [discriminate|]. unfold match_int.
  destruct (Ascii.eqb c "0"); [intros [= <- <-]; cbn; lia|].
  unfold is_digit. cbn [read_digits]. destruct (digit_of c); [|discriminate].
  pose proof (read_digits_length s) as Hl. destruct (read_digits s).
  intros [= <- <-]. cbn [snd length] in *. lia.
Qed.

Lemma scan_number_shorter s v r :
  scan_number s = POk v r -> (length r < length s)%nat.
Proof.
  unfold scan_number.
  destruct s as [|c s].
  - cbn. discriminate.
  - destruct (Ascii.eqb c "-").
    + destruct (match_int s) as [[u r']|] eqn:E.
      * apply match_int_shorter in E.
        destruct (has_frac r' || has_exp r'); [discriminate|].
        intros [= <- <-]. cbn [length]. lia.
      * destruct (_ || _); discriminate.
    + destruct (match_int (c :: s)) as [[u r']|] eqn:E.
      * apply match_int_shorter in E.
        destruct (has_frac r' || has_exp r'); [discriminate|].
        now intros [= <- <-].
      * destruct (_ || _); discriminate.
Qed.

Lemma strip_prefix_length p : forall s r,
  strip_prefix p s = Some r -> (length r + length p = length s)%nat.
Proof.
  induction p as [|a p IH]; intros s r; cbn [strip_prefix].
  - intros [= <-]. cbn. lia.
  - destruct s as [|c s]; [discriminate|]. destruct (Ascii.eqb a c); [|discriminate].
    intros H. apply IH in H. cbn [length]. lia.
Qed.

Lemma scan_literal_shorter lit v0 s v r :
  (0 < String.length lit)%nat ->
  scan_literal lit v0 s = POk v r -> (length r < length s)%nat.
Proof.
  intros Hlit. unfold scan_literal.
  destruct (strip_prefix (chars lit) s) as [r'|] eqn:E.
  - intros [= <- <-]. apply strip_prefix_length in E.
    assert (length (chars lit) = String.length lit) as Hc.
    { clear. induction lit; cbn; [easy|]. unfold chars in IHlit. now rewrite IHlit. }
    lia.
  - apply scan_number_shorter.
Qed.

Lemma pbind_POk {A B} (r : presult A) (k : A -> list ascii -> presult B) b rest :
  pbind r k = POk b rest -> exists a r', r = POk a r' /\ k a r' = POk b rest.
Proof. destruct r; try discriminate. cbn. eauto. Qed.

Lemma skip_ws_cons_length s c r :
  skip_ws s = c :: r -> (length r < length s)%nat.
Proof. intros H. pose proof (skip_ws_length s). rewrite H in *. cbn in *. lia. Qed.

Lemma scanners_shorter fuel :
  (forall s v r, scan_once fuel s = POk v r -> (length r < length s)%nat) /\
  (forall s v r, array_items fuel s = POk v r -> (length r < length s)%nat) /\
  (forall s v r, object_pairs fuel s = POk v r -> (length r < length s)%nat).
Proof.
  induction fuel as [|f (IHs & IHa & IHo)]; [repeat split; discriminate|].
  repeat split; intros s v r H.
  - destruct s as [|c s]; [discriminate|]. cbn [scan_once] in H.
    destruct (Ascii.eqb c dquote).
    { apply pmap_POk in H as (w & H & _).
      apply (scanstring_shorter _ _ _ _ (le_n _)) in H. cbn [length]. lia. }
    destruct (Ascii.eqb c "{").
    { destruct (skip_ws s) as [|c1 r1] eqn:E; [discriminate|].
      apply skip_ws_cons_length in E. cbn [length].
      destruct (Ascii.eqb c1 "}"); [injection H as <- <-; lia|].
      destruct (Ascii.eqb c1 dquote); [|discriminate].
      apply pmap_POk in H as (w & H & _). apply IHo in H. lia. }
    destruct (Ascii.eqb c "[").
    { destruct (skip_ws s) as [|c1 r1] eqn:E; [discriminate|].
      pose proof (skip_ws_length s) as Hl. rewrite E in Hl. cbn [length] in Hl |- *.
      destruct (Ascii.eqb c1 "]"); [injection H as <- <-; lia|].
      apply pmap_POk in H as (w & H & _). apply IHa in H. cbn [length] in H. lia. }
    destruct (Ascii.eqb c "n"); [now apply scan_literal_shorter in H; [|cbn; lia]|].
    destruct (Ascii.eqb c "t"); [now apply scan_literal_shorter in H; [|cbn; lia]|].
    destruct (Ascii.eqb c "f"); [now apply scan_literal_shorter in H; [|cbn; lia]|].
    now apply scan_number_shorter in H.
  - cbn [array_items] in H. apply pbind_POk in H as (x & r1 & Hx & H).
    apply IHs in Hx.
    destruct (skip_ws r1) as [|c r2] eqn:E; [discriminate|].
    apply skip_ws_cons_length in E.
    destruct (Ascii.eqb c "]"); [injection H as <- <-; lia|].
    destruct (Ascii.eqb c ","); [|discriminate].
    apply pmap_POk in H as (w & H & _). apply IHa in H.
    pose proof (skip_ws_length r2). lia.
  - cbn [object_pairs] in H. apply pbind_POk in H as (key & r1 & Hk & H).
    apply (scanstring_shorter _ _ _ _ (le_n _)) in Hk.
    destruct (skip_ws r1) as [|c r2] eqn:E; [discriminate|].
    apply skip_ws_cons_length in E.
    destruct (Ascii.eqb c ":"); [|discriminate].
    apply pbind_POk in H as (x & r3 & Hx & H). apply IHs in Hx.
    pose proof (skip_ws_length r2).
    destruct (skip_ws r3) as [|c2 r4] eqn:E3; [discriminate|].
    apply skip_ws_cons_length in E3.
    destruct (Ascii.eqb c2 "}"); [injection H as <- <-; lia|].
    destruct (Ascii.eqb c2 ","); [|discriminate].
    destruct (skip_ws r4) as [|c3 r5] eqn:E4; [discriminate|].
    apply skip_ws_cons_length in E4.
    destruct (Ascii.eqb c3 dquote); [|discriminate].
    apply pmap_POk in H as (w & H & _). apply IHo in H. lia.
Qed.

Lemma scanstring_fuel s : scanstring s <> PFuel.
Proof.
  remember (length s) as n eqn:Hn. assert (Hle : (length s <= n)%nat) by lia.
  clear Hn. revert s Hle.
  induction n as [|n IH]; intros s Hn.
  - destruct s; [discriminate|cbn in Hn; lia].
  - destruct s as [|c s]; [discriminate|]. cbn [scanstring].
    cbn [length] in Hn.
    destruct (Ascii.eqb c dquote); [discriminate|].
    destruct (Ascii.eqb c backslash).
    + destruct s as [|e s]; [discriminate|]. cbn [length] in Hn.
      destruct (Ascii.eqb e "u").
      * destruct s as [|h3 [|h2 [|h1 [|h0 s]]]]; try discriminate.
        destruct (decode_uXXXX h3 h2 h1 h0) as [k|]; [|discriminate].
        destruct (k <? 256)%N; [|discriminate].
        intros H. apply pmap_PFuel in H. revert H. apply IH.
        cbn [length] in Hn. lia.
      * destruct (unescape e); [|discriminate].
        intros H. apply pmap_PFuel in H. revert H. apply IH. lia.
    + destruct (N_of_ascii c <? 32)%N; [discriminate|].
      intros H. apply pmap_PFuel in H. revert H. apply IH. lia.
Qed.

Lemma scan_number_fuel s : scan_number s <> PFuel.
Proof.
  unfold scan_number.
  destruct s as [|c s]; [cbn; discriminate|].
  destruct (Ascii.eqb c "-");
    (destruct (match_int _) as [[u r']|];
     [destruct (has_frac r' || has_exp r')|destruct (_ || _)]; discriminate).
Qed.

Lemma scan_literal_fuel lit v0 s : scan_literal lit v0 s <> PFuel.
Proof.
  unfold scan_literal. destruct (strip_prefix _ _); [discriminate|].
  apply scan_number_fuel.
Qed.

(** A budget of twice the length of the text, and one more, is never
    exhausted. *)
Lemma scanners_fuel fuel :
  (forall s, (2 * length s + 1 <= fuel)%nat -> scan_once fuel s <> PFuel) /\
  (forall s, (2 * length s + 2 <= fuel)%nat -> array_items fuel s <> PFuel) /\
  (forall s, (2 * length s + 2 <= fuel)%nat -> object_pairs fuel s <> PFuel).
Proof.
  induction fuel as [|f (IHs & IHa & IHo)]; [repeat split; intros s; lia|].
  destruct (scanners_shorter f) as (Ss & Sa & So).
  repeat split; intros s Hf.
  - destruct s as [|c s]; [discriminate|]. cbn [scan_once]. cbn [length] in Hf.
    destruct (Ascii.eqb c dquote).
    { intros H. apply pmap_PFuel in H. now apply scanstring_fuel in H. }
    destruct (Ascii.eqb c "{").
    { destruct (skip_ws s) as [|c1 r1] eqn:E; [discriminate|].
      apply skip_ws_cons_length in E.
      destruct (Ascii.eqb c1 "}"); [discriminate|].
      destruct (Ascii.eqb c1 dquote); [|discriminate].
      intros H. apply pmap_PFuel in H. revert H. apply IHo. lia. }
    destruct (Ascii.eqb c "[").
    { destruct (skip_ws s) as [|c1 r1] eqn:E; [discriminate|].
      pose proof (skip_ws_length s) as Hl. rewrite E in Hl. cbn [length] in Hl.
      destruct (Ascii.eqb c1 "]"); [discriminate|].
      intros H. apply pmap_PFuel in H. revert H. apply IHa. cbn [length]. lia. }
    destruct (Ascii.eqb c "n"); [apply scan_literal_fuel|].
    destruct (Ascii.eqb c "t"); [apply scan_literal_fuel|].
    destruct (Ascii.eqb c "f"); [apply scan_literal_fuel|].
    apply scan_number_fuel.
  - cbn [array_items]. pose proof (IHs s ltac:(lia)) as Hs.
    destruct (scan_once f s) as [x r1| | |] eqn:Ex; try discriminate; [|congruence].
    apply Ss in Ex. cbn [pbind].
    destruct (skip_ws r1) as [|c r2] eqn:E; [discriminate|].
    apply skip_ws_cons_length in E.
    destruct (Ascii.eqb c "]"); [discriminate|].
    destruct (Ascii.eqb c ","); [|discriminate].
    intros H. apply pmap_PFuel in H. revert H. apply IHa.
    pose proof (skip_ws_length r2) as Hw. lia.
  - cbn [object_pairs]. pose proof (scanstring_fuel s) as Hk.
    destruct (scanstring s) as [key r1| | |] eqn:Ek; try discriminate; [|congruence].
    apply (scanstring_shorter _ _ _ _ (le_n _)) in Ek. cbn [pbind].
    destruct (skip_ws r1) as [|c r2] eqn:E; [discriminate|].
    apply skip_ws_cons_length in E.
    destruct (Ascii.eqb c ":"); [|discriminate].
    pose proof (skip_ws_length r2) as Hw.
    pose proof (IHs (skip_ws r2) ltac:(lia)) as Hs.
    destruct (scan_once f (skip_ws r2)) as [x r3| | |] eqn:Ex;
      try discriminate; [|congruence].
    apply Ss in Ex. cbn [pbind].
    destruct (skip_ws r3) as [|c2 r4] eqn:E3; [discriminate|].
    apply skip_ws_cons_length in E3.
    destruct (Ascii.eqb c2 "}"); [discriminate|].
    destruct (Ascii.eqb c2 ","); [|discriminate].
    destruct (skip_ws r4) as [|c3 r5] eqn:E4; [discriminate|].
    apply skip_ws_cons_length in E4.
    destruct (Ascii.eqb c3 dquote); [|discriminate].
    intros H. apply pmap_PFuel in H. revert H. apply IHo. lia.
Qed.

(** [decode] never exhausts its budget: a text is decoded, rejected, or
    outside the modelled domain. *)
Theorem decode_total s : decode s <> PFuel.
Proof.
  unfold decode.
  pose proof (proj1 (scanners_fuel (2 * length s + 2)) (skip_ws s)) as H.
  pose proof (skip_ws_length s) as Hw.
  destruct (scan_once _ _) as [v r| | |]; cbn [pbind]; try discriminate.
  - destruct (skip_ws r); discriminate.
  - exfalso. apply H; [lia|reflexivity].
Qed.

(** ** The requirer: relation accessor, publish and URL accessor *)

Section Requirer.
Variable self : TraefikRouteRequirer.

Lemma relation_Some c r :
  relation self c = Some r ->
  exists rs, relations c !! _endpoint self = Some (r :: rs).
Proof.
  unfold relation. destruct (relations c !! _endpoint self) as [[|r' rs]|];
    try discriminate.
  intros [= ->]. now exists rs.
Qed.

Lemma databag_setitem_first owner key value c r rs d :
  relations c !! _endpoint self = Some (r :: rs) ->
  rel_data r !! owner = Some d ->
  databag_setitem (_endpoint self) owner key value c =
    (inr (), with_databag (_endpoint self) owner r rs (<[key := value]> d) c).
Proof.
  intros Hrel Hbag. unfold databag_setitem, with_databag. f_equal. f_equal.
  rewrite (alter_alt_Some _ _ _ _ Hrel). unfold setitem_in_relation.
  now rewrite (alter_alt_Some _ _ _ _ Hbag).
Qed.

Lemma with_databag_twice owner c r rs d d' :
  with_databag (_endpoint self) owner
    {| rel_name := rel_name r; rel_id := rel_id r; rel_app := rel_app r;
       rel_data := <[owner := d]> (rel_data r) |} rs d'
    (with_databag (_endpoint self) owner r rs d c) =
  with_databag (_endpoint self) owner r rs d' c.
Proof.
  unfold with_databag. cbn [unit Ops.app relations rel_name rel_id rel_app rel_data].
  now rewrite !insert_insert_eq.
Qed.

(** A publish by the leader with a relation and the databag present: the
    two serializations and the two assignments, in the order of the
    source. *)
Lemma relay_ingress_request_run (ingress config : pyobject) c r rs d :
  is_leader (unit c) = true ->
  relations c !! _endpoint self = Some (r :: rs) ->
  rel_data r !! app c = Some d ->
  relay_ingress_request self ingress config c =
    match _serialize_data config with
    | inl e => (inl e, c)
    | inr config_text =>
        match _serialize_data ingress with
        | inl e =>
            (inl e,
             with_databag (_endpoint self) (app c) r rs
               (<["config" := config_text]> d) c)
        | inr ingress_text =>
            (inr (),
             with_databag (_endpoint self) (app c) r rs
               (<["ingress" := ingress_text]> (<["config" := config_text]> d))
               c)
        end
    end.
Proof.
  intros Hl Hrel Hbag.
  unfold relay_ingress_request, bind, get_charm, lift, relation.
  rewrite Hl, Hrel. cbn [negb getattr_data]. unfold getitem. rewrite Hbag.
  destruct (_serialize_data config) as [e|config_text]; [reflexivity|].
  rewrite (databag_setitem_first _ _ _ _ _ _ _ Hrel Hbag).
  destruct (_serialize_data ingress) as [e|ingress_text]; [reflexivity|].
  erewrite databag_setitem_first;
    [|unfold with_databag; cbn [relations]; apply lookup_insert_eq
     |cbn [rel_data]; apply lookup_insert_eq].
  change (Ops.app (with_databag (_endpoint self) (Ops.app c) r rs
                     (<["config" := config_text]> d) c)) with (Ops.app c).
  now rewrite with_databag_twice.
Qed.

(** The state after a publish by the leader: the databag of the caller's
    application in the first relation holds the two serializations, and
    nothing else differs. *)
Lemma relay_ingress_request_leader (ingress config : json) c r rs d :
  is_leader (unit c) = true ->
  relations c !! _endpoint self = Some (r :: rs) ->
  rel_data r !! app c = Some d ->
  relay_ingress_request self (Json ingress) (Json config) c =
    (inr (),
     {| unit := unit c;
        app := app c;
        relations :=
          <[_endpoint self :=
              {| rel_name := rel_name r;
                 rel_id := rel_id r;
                 rel_app := rel_app r;
                 rel_data :=
                   <[app c := <["ingress" := json_dumps ingress]>
                                (<["config" := json_dumps config]> d)]>
                     (rel_data r) |}
              :: rs]> (relations c) |}).
Proof.
  intros Hl Hrel Hbag.
  now rewrite (relay_ingress_request_run _ _ c r rs d Hl Hrel Hbag).
Qed.

Lemma relay_ingress_request_not_leader' (ingress config : pyobject) c :
  is_leader (unit c) = false ->
  relay_ingress_request self ingress config c = (inl UnauthorizedError, c).
Proof.
  intros Hl. unfold relay_ingress_request, bind, get_charm.
  now rewrite Hl.
Qed.

End Requirer.

(** *** Publish by a unit that is not the leader *)

(** C1: a publish by a unit that is not the leader raises
    [UnauthorizedError] and leaves the whole state, hence every relation
    databag, as it was. *)
Theorem relay_ingress_request_not_leader
    (self : TraefikRouteRequirer) (ingress config : pyobject) (c : Charm) :
  is_leader (unit c) = false ->
  relay_ingress_request self ingress config c = (inl UnauthorizedError, c).
Proof.
  intros Hl. unfold relay_ingress_request, bind, get_charm.
  now rewrite Hl.
Qed.

Lemma relay_ingress_request_not_leader_witness :
  relay_ingress_request Examples.self
    (Json Examples.ingress) (Json Examples.config)
    (Examples.fresh_charm false)
  = (inl UnauthorizedError, Examples.fresh_charm false).
Proof.
  apply (relay_ingress_request_not_leader Examples.self
           (Json Examples.ingress) (Json Examples.config)
           (Examples.fresh_charm false)).
  reflexivity.
Defined.

(** *** Publish by the leader *)

Lemma wf_json_ingress : wf_json Examples.ingress.
Proof.
  cbn. repeat split. apply NoDup_cons. split; [|apply NoDup_singleton].
  rewrite list_elem_of_singleton. discriminate.
Qed.

Lemma wf_json_config : wf_json Examples.config.
Proof. cbn. repeat split. apply NoDup_singleton. Qed.

(** C2, as amended: a publish by the leader with a relation present adds
    the fields [config] and [ingress] to the databag of the caller's
    application, so that it holds exactly those two when it held no other
    field before; parsing the stored texts gives the arguments back. *)
Theorem relay_ingress_request_publishes
    (self : TraefikRouteRequirer) (ingress config : json)
    (c : Charm) (r : Relation) (d : gmap string string) :
  wf_json ingress -> wf_json config ->
  is_leader (unit c) = true ->
  relation self c = Some r ->
  rel_data r !! app c = Some d ->
  exists c' r' d',
    relay_ingress_request self (Json ingress) (Json config) c
    = (inr (), c') /\
    relation self c' = Some r' /\
    rel_data r' !! app c' = Some d' /\
    dom d' = dom d ∪ {[ "config"; "ingress" ]} /\
    (dom d ⊆ {[ "config"; "ingress" ]} -> dom d' = {[ "config"; "ingress" ]}) /\
    _deserialize_data (d' !! "config") = inr config /\
    _deserialize_data (d' !! "ingress") = inr ingress.
Proof.
  intros Hwi Hwc Hl Hr Hd. destruct (relation_Some self c r Hr) as [rs Hrs].
  eexists _, _, _. split; [exact (relay_ingress_request_leader self _ _ _ _ _ _ Hl Hrs Hd)|].
  assert (Hdom : dom (<["ingress" := json_dumps ingress]>
                        (<["config" := json_dumps config]> d))
                 = dom d ∪ {[ "config"; "ingress" ]}).
  { rewrite !dom_insert_L. set_solver. }
  split; [|split; [|split; [exact Hdom|split; [|split]]]].
  - unfold relation. cbn [relations]. now rewrite lookup_insert_eq.
  - cbn [rel_data Ops.app]. apply lookup_insert_eq.
  - intros Hsub. rewrite Hdom. set_solver.
  - rewrite lookup_insert_ne by discriminate. rewrite lookup_insert_eq.
    now apply json_loads_dumps.
  - rewrite lookup_insert_eq. now apply json_loads_dumps.
Qed.

Lemma relay_ingress_request_publishes_witness :
  exists c' r' d',
    relay_ingress_request Examples.self
      (Json Examples.ingress) (Json Examples.config)
      (Examples.fresh_charm true) = (inr (), c') /\
    relation Examples.self c' = Some r' /\
    rel_data r' !! app c' = Some d' /\
    dom d' = dom (∅ : gmap string string) ∪ {[ "config"; "ingress" ]} /\
    (dom (∅ : gmap string string) ⊆ {[ "config"; "ingress" ]} ->
     dom d' = {[ "config"; "ingress" ]}) /\
    _deserialize_data (d' !! "config") = inr Examples.config /\
    _deserialize_data (d' !! "ingress") = inr Examples.ingress.
Proof.
  apply (relay_ingress_request_publishes Examples.self Examples.ingress
           Examples.config (Examples.fresh_charm true)
           (Examples.a_relation 0 ∅ ∅) ∅).
  - exact wf_json_ingress.
  - exact wf_json_config.
  - reflexivity.
  - vm_compute. reflexivity.
  - vm_compute. reflexivity.
Defined.

(** C2, as stated, fails: a databag that held a field of its own before the
    publish holds three fields after it. *)
Lemma publish_leaves_exactly_two_fields_fails :
  ~ publish_leaves_exactly_two_fields.
Proof.
  intros H.
  destruct (H Examples.self Examples.ingress Examples.config
              Examples.crowded_charm
              (Examples.a_relation 0 {[ "other" := "x" ]} ∅)
              {[ "other" := "x" ]}
              wf_json_ingress wf_json_config eq_refl)
    as (c' & r' & d' & Hrun & Hrel & Hbag & Hdom & _).
  - vm_compute. reflexivity.
  - vm_compute. reflexivity.
  - rewrite (relay_ingress_request_leader Examples.self _ _ _
               (Examples.a_relation 0 {[ "other" := "x" ]} ∅) []
               {[ "other" := "x" ]}) in Hrun;
      [|reflexivity|vm_compute; reflexivity|vm_compute; reflexivity].
    injection Hrun as <-. unfold relation in Hrel. cbn [relations] in Hrel.
    rewrite lookup_insert_eq in Hrel. injection Hrel as <-.
    cbn [rel_data Ops.app] in Hbag. rewrite lookup_insert_eq in Hbag.
    injection Hbag as <-.
    assert (Hin : "other" ∈ dom (<["ingress" := json_dumps Examples.ingress]>
                     (<["config" := json_dumps Examples.config]>
                        ({[ "other" := "x" ]} : gmap string string)))).
    { rewrite !dom_insert_L, dom_singleton_L. set_solver. }
    rewrite Hdom in Hin. set_solver.
Qed.

(** C8: a publish by the leader changes no field of the application
    databag other than [config] and [ingress]. *)
Theorem relay_ingress_request_frame
    (self : TraefikRouteRequirer) (ingress config : json)
    (c : Charm) (r : Relation) (d : gmap string string) :
  is_leader (unit c) = true ->
  relation self c = Some r ->
  rel_data r !! app c = Some d ->
  exists c' r' d',
    relay_ingress_request self (Json ingress) (Json config) c
    = (inr (), c') /\
    relation self c' = Some r' /\
    rel_data r' !! app c' = Some d' /\
    forall k, k <> "config" -> k <> "ingress" -> d' !! k = d !! k.
Proof.
  intros Hl Hr Hd. destruct (relation_Some self c r Hr) as [rs Hrs].
  eexists _, _, _. split; [exact (relay_ingress_request_leader self _ _ _ _ _ _ Hl Hrs Hd)|].
  split; [|split].
  - unfold relation. cbn [relations]. now rewrite lookup_insert_eq.
  - cbn [rel_data Ops.app]. apply lookup_insert_eq.
  - intros k Hc Hi. now rewrite !lookup_insert_ne by congruence.
Qed.

Lemma relay_ingress_request_frame_witness :
  exists c' r' d',
    relay_ingress_request Examples.self
      (Json Examples.ingress) (Json Examples.config)
      Examples.crowded_charm = (inr (), c') /\
    relation Examples.self c' = Some r' /\
    rel_data r' !! app c' = Some d' /\
    forall k, k <> "config" -> k <> "ingress" ->
              d' !! k = ({[ "other" := "x" ]} : gmap string string) !! k.
Proof.
  apply (relay_ingress_request_frame Examples.self Examples.ingress
           Examples.config Examples.crowded_charm
           (Examples.a_relation 0 {[ "other" := "x" ]} ∅)
           {[ "other" := "x" ]}).
  - reflexivity.
  - vm_compute. reflexivity.
  - vm_compute. reflexivity.
Defined.

(** *** The URL accessor *)

(** With a relation present and the databag of the remote application in
    it, the accessor parses the field and looks the unit up; the state is
    only read. *)
Lemma proxied_endpoint_eval
    (self : TraefikRouteRequirer) (c : Charm) (r : Relation)
    (bag : gmap string string) :
  relation self c = Some r ->
  rel_data r !! rel_app r = Some bag ->
  proxied_endpoint self c =
    (match _deserialize_data (bag !! "traefik_route") with
     | inl e => inl e
     | inr data =>
         match py_get data (unit_name (unit c)) (JObj []) with
         | inl e => inl e
         | inr entry => py_get entry "url" JNull
         end
     end, c).
Proof.
  intros Hr Hb. unfold proxied_endpoint, bind, get_charm, lift, ret.
  rewrite Hr. cbn [getattr_data getattr_app]. unfold getitem. rewrite Hb.
  destruct (_deserialize_data (bag !! "traefik_route")) as [e|data]; [reflexivity|].
  destruct (py_get data (unit_name (unit c)) (JObj [])) as [e|entry]; [reflexivity|].
  now destruct (py_get entry "url" JNull).
Qed.

Lemma dict_get_head k v m : dict_get k ((k, v) :: m) = Some v.
Proof. cbn. now rewrite String.eqb_refl. Qed.

(** C3: when the field [traefik_route] of the remote application's databag
    holds the serialization of [{u: {"url": x}}], the URL accessor of unit
    [u] returns [x]. *)
Theorem proxied_endpoint_of_serialized
    (self : TraefikRouteRequirer) (c : Charm) (r : Relation)
    (bag : gmap string string) (u x text : string) :
  relation self c = Some r ->
  rel_data r !! rel_app r = Some bag ->
  _serialize_data (Json (JObj [(u, JObj [("url", JStr x)])])) = inr text ->
  bag !! "traefik_route" = Some text ->
  unit_name (unit c) = u ->
  proxied_endpoint self c = (inr (JStr x), c).
Proof.
  intros Hr Hb Hs Hf Hu. injection Hs as <-.
  rewrite (proxied_endpoint_eval self c r bag Hr Hb), Hf, Hu.
  unfold _deserialize_data. rewrite json_loads_dumps.
  - cbn [py_get]. rewrite dict_get_head. cbn [py_get].
    now rewrite dict_get_head.
  - cbn. repeat split; apply NoDup_singleton.
Qed.

Lemma proxied_endpoint_of_serialized_witness :
  proxied_endpoint Examples.self
    (Examples.routed_charm
       {[ "traefik_route" := json_dumps Examples.routes ]})
  = (inr (JStr Examples.a_url),
     Examples.routed_charm
       {[ "traefik_route" := json_dumps Examples.routes ]}).
Proof.
  apply (proxied_endpoint_of_serialized Examples.self _
           (Examples.a_relation 0 ∅
              {[ "traefik_route" := json_dumps Examples.routes ]})
           {[ "traefik_route" := json_dumps Examples.routes ]}
           "traefik-route-k8s/0" Examples.a_url
           (json_dumps Examples.routes)).
  - vm_compute. reflexivity.
  - vm_compute. reflexivity.
  - reflexivity.
  - vm_compute. reflexivity.
  - reflexivity.
Defined.

(** C9: when the field holds valid JSON for a mapping in which the unit's
    name is no key, or is the key of a mapping without [url], the URL
    accessor returns [None] and raises nothing. *)
Theorem proxied_endpoint_none
    (self : TraefikRouteRequirer) (c : Charm) (r : Relation)
    (bag : gmap string string) (raw : string) (m : list (string * json)) :
  relation self c = Some r ->
  rel_data r !! rel_app r = Some bag ->
  bag !! "traefik_route" = Some raw ->
  json_loads (Some raw) = inr (JObj m) ->
  (dict_get (unit_name (unit c)) m = None \/
   exists e, dict_get (unit_name (unit c)) m = Some (JObj e) /\
             dict_get "url" e = None) ->
  proxied_endpoint self c = (inr JNull, c).
Proof.
  intros Hr Hb Hf Hp Hm.
  rewrite (proxied_endpoint_eval self c r bag Hr Hb), Hf.
  unfold _deserialize_data. rewrite Hp. cbn [py_get].
  destruct Hm as [Hm|(e & Hm & He)]; rewrite Hm; cbn [py_get dict_get].
  - reflexivity.
  - now rewrite He.
Qed.

Lemma proxied_endpoint_none_witness :
  proxied_endpoint Examples.self
    (Examples.routed_charm
       {[ "traefik_route" := json_dumps (JObj [("other/0", JObj [])]) ]})
  = (inr JNull,
     Examples.routed_charm
       {[ "traefik_route" := json_dumps (JObj [("other/0", JObj [])]) ]}).
Proof.
  apply (proxied_endpoint_none Examples.self _
           (Examples.a_relation 0 ∅
              {[ "traefik_route" := json_dumps (JObj [("other/0", JObj [])]) ]})
           {[ "traefik_route" := json_dumps (JObj [("other/0", JObj [])]) ]}
           (json_dumps (JObj [("other/0", JObj [])]))
           [("other/0", JObj [])]).
  - vm_compute. reflexivity.
  - vm_compute. reflexivity.
  - vm_compute. reflexivity.
  - vm_compute. reflexivity.
  - left. vm_compute. reflexivity.
Defined.

(** *** The relation accessor *)

(** C5: the relation accessor returns [None] when the endpoint has no
    relation (no entry, or an empty list), and a relation, the first of the
    list, when it has at least one. *)
Theorem relation_none_or_first (self : TraefikRouteRequirer) (c : Charm) :
  (relations c !! _endpoint self = None \/
   relations c !! _endpoint self = Some [] ->
   relation self c = None) /\
  (forall r rs, relations c !! _endpoint self = Some (r :: rs) ->
                relation self c = Some r).
Proof.
  unfold relation. split.
  - intros [H|H]; now rewrite H.
  - intros r rs H. now rewrite H.
Qed.

Lemma relation_none_or_first_witness :
  relation Examples.self (Examples.lonely_charm true) = None /\
  relation Examples.self (Examples.fresh_charm true)
  = Some (Examples.a_relation 0 ∅ ∅).
Proof.
  split.
  - apply (proj1 (relation_none_or_first Examples.self
                    (Examples.lonely_charm true))).
    left. vm_compute. reflexivity.
  - apply (proj2 (relation_none_or_first Examples.self
                    (Examples.fresh_charm true))
             (Examples.a_relation 0 ∅ ∅) []).
    vm_compute. reflexivity.
Defined.

(** C6: with two or more relations on the endpoint, the accessor gives the
    first one; the URL accessor gives what it gives when the first relation
    is the only one; and a publish leaves every later relation as it
    was. *)
Theorem relation_first_of_many
    (self : TraefikRouteRequirer) (c : Charm)
    (r1 r2 : Relation) (rs : list Relation) :
  relations c !! _endpoint self = Some (r1 :: r2 :: rs) ->
  relation self c = Some r1 /\
  fst (proxied_endpoint self c) =
    fst (proxied_endpoint self
           {| unit := unit c; app := app c;
              relations := <[_endpoint self := [r1]]> (relations c) |}) /\
  forall ingress config,
    exists r1',
      relations (snd (relay_ingress_request self ingress config c))
        !! _endpoint self = Some (r1' :: r2 :: rs) /\
      relations (snd (relay_ingress_request self ingress config
                        {| unit := unit c; app := app c;
                           relations := <[_endpoint self := [r1]]> (relations c) |}))
        !! _endpoint self = Some [r1'].
Proof.
  intros Hrs.
  assert (Hr : relation self c = Some r1) by (unfold relation; now rewrite Hrs).
  set (c1 := {| unit := unit c; app := app c;
                relations := <[_endpoint self := [r1]]> (relations c) |}).
  assert (Hrs1 : relations c1 !! _endpoint self = Some [r1])
    by apply lookup_insert_eq.
  assert (Hr1 : relation self c1 = Some r1) by (unfold relation; now rewrite Hrs1).
  split; [exact Hr|split].
  - unfold proxied_endpoint, bind, get_charm, lift, ret. rewrite Hr, Hr1.
    cbn [getattr_data getattr_app]. change (unit c1) with (unit c).
    destruct (getitem (rel_data r1) (rel_app r1)) as [e|bag]; [reflexivity|].
    destruct (_deserialize_data (bag !! "traefik_route")) as [e|data]; [reflexivity|].
    destruct (py_get data (unit_name (unit c)) (JObj [])) as [e|entry]; [reflexivity|].
    now destruct (py_get entry "url" JNull).
  - intros ingress config.
    destruct (is_leader (unit c)) eqn:Hl.
    + destruct (rel_data r1 !! app c) as [d|] eqn:Hd.
      * rewrite (relay_ingress_request_run self _ _ c r1 (r2 :: rs) d Hl Hrs Hd).
        rewrite (relay_ingress_request_run self _ _ c1 r1 [] d Hl Hrs1 Hd).
        destruct (_serialize_data config) as [e|config_text];
          [exists r1; now split|].
        destruct (_serialize_data ingress) as [e|ingress_text];
          (eexists; unfold with_databag; cbn [snd relations];
           rewrite !lookup_insert_eq; split; reflexivity).
      * exists r1. unfold relay_ingress_request, bind, get_charm, lift.
        change (unit c1) with (unit c). rewrite Hl, Hr, Hr1.
        cbn [negb getattr_data]. unfold getitem.
        change (Ops.app c1) with (Ops.app c). rewrite Hd. now split.
    + exists r1. rewrite !relay_ingress_request_not_leader' by exact Hl.
      now split.
Qed.

Lemma relation_first_of_many_witness :
  relation Examples.self Examples.two_relations_charm
  = Some (Examples.a_relation 0 ∅ ∅) /\
  fst (proxied_endpoint Examples.self Examples.two_relations_charm) =
    fst (proxied_endpoint Examples.self
           {| unit := unit Examples.two_relations_charm;
              app := app Examples.two_relations_charm;
              relations :=
                <[_endpoint Examples.self := [Examples.a_relation 0 ∅ ∅]]>
                  (relations Examples.two_relations_charm) |}) /\
  forall ingress config,
    exists r1',
      relations (snd (relay_ingress_request Examples.self ingress config
                        Examples.two_relations_charm))
        !! _endpoint Examples.self
      = Some [r1'; Examples.a_relation 1 ∅ ∅] /\
      relations (snd (relay_ingress_request Examples.self ingress config
                        {| unit := unit Examples.two_relations_charm;
                           app := app Examples.two_relations_charm;
                           relations :=
                             <[_endpoint Examples.self :=
                                 [Examples.a_relation 0 ∅ ∅]]>
                               (relations Examples.two_relations_charm) |}))
        !! _endpoint Examples.self = Some [r1'].
Proof.
  apply (relation_first_of_many Examples.self Examples.two_relations_charm
           (Examples.a_relation 0 ∅ ∅) (Examples.a_relation 1 ∅ ∅) []).
  vm_compute. reflexivity.
Defined.

(** *** Publish without a relation *)

(** C10: with no relation on the endpoint, a publish by the leader raises
    [AttributeError], which is neither [UnauthorizedError] nor
    [TraefikNotReadyError], and writes nothing. *)
Theorem relay_ingress_request_no_relation
    (self : TraefikRouteRequirer) (ingress config : pyobject) (c : Charm) :
  is_leader (unit c) = true ->
  (relations c !! _endpoint self = None \/
   relations c !! _endpoint self = Some []) ->
  relay_ingress_request self ingress config c = (inl AttributeError, c) /\
  AttributeError <> UnauthorizedError /\
  AttributeError <> TraefikNotReadyError.
Proof.
  intros Hl Hrs. split; [|split; discriminate].
  unfold relay_ingress_request, bind, get_charm, lift, relation.
  rewrite Hl. destruct Hrs as [H|H]; now rewrite H.
Qed.

Lemma relay_ingress_request_no_relation_witness :
  relay_ingress_request Examples.self
    (Json Examples.ingress) (Json Examples.config)
    (Examples.lonely_charm true)
  = (inl AttributeError, Examples.lonely_charm true) /\
  AttributeError <> UnauthorizedError /\
  AttributeError <> TraefikNotReadyError.
Proof.
  apply (relay_ingress_request_no_relation Examples.self
           (Json Examples.ingress) (Json Examples.config)
           (Examples.lonely_charm true)).
  - reflexivity.
  - left. vm_compute. reflexivity.
Defined.

(** *** Serialization format and parsing failures *)

Lemma iterencode_dict_indented level kx m :
  exists rest,
    _iterencode level (JObj (kx :: m)) =
    "{"%char :: newline :: repeat space (2 * S level) ++ dquote :: rest.
Proof.
  cbn [_iterencode]. unfold newline_indent, encode_basestring_ascii.
  eexists. cbn [Datatypes.app]. reflexivity.
Qed.

Lemma iterencode_list_indented level x l :
  exists rest,
    _iterencode level (JArr (x :: l)) =
    "["%char :: newline :: repeat space (2 * S level) ++ rest.
Proof.
  cbn [_iterencode]. unfold newline_indent.
  eexists. cbn [Datatypes.app]. reflexivity.
Qed.

(** C7: serialization writes one item per line, indented by two spaces per
    level; deserialization is [json.loads] and returns any JSON value,
    whatever its shape; a missing inbound field makes the URL accessor
    raise the [TypeError] of [json.loads] and a field that is no JSON text
    its [JSONDecodeError], the state being left as it was; and a publish
    of JSON values by the leader with a relation present raises nothing,
    whatever the values and the inbound field. *)
Theorem serialization_and_parsing_failures :
  (forall kx m, exists text rest,
     _serialize_data (Json (JObj (kx :: m))) = inr text /\
     chars text =
     "{"%char :: newline :: space :: space :: dquote :: rest) /\
  (forall x l, exists text rest,
     _serialize_data (Json (JArr (x :: l))) = inr text /\
     chars text =
     "["%char :: newline :: space :: space :: rest) /\
  (forall data, _deserialize_data data = json_loads data) /\
  (forall v, wf_json v ->
     exists text,
       _serialize_data (Json v) = inr text /\
       _deserialize_data (Some text) = inr v) /\
  (forall self c r bag,
     relation self c = Some r ->
     rel_data r !! rel_app r = Some bag ->
     (bag !! "traefik_route" = None ->
      proxied_endpoint self c = (inl TypeError, c)) /\
     (forall raw, bag !! "traefik_route" = Some raw ->
                  json_loads (Some raw) = inl JSONDecodeError ->
                  proxied_endpoint self c = (inl JSONDecodeError, c))) /\
  (forall self (ingress config : json) c r d,
     is_leader (unit c) = true ->
     relation self c = Some r ->
     rel_data r !! app c = Some d ->
     fst (relay_ingress_request self (Json ingress) (Json config) c)
     = inr ()).
Proof.
  split; [|split; [|split; [|split; [|split]]]].
  - intros kx m. destruct (iterencode_dict_indented 0 kx m) as [rest Hrest].
    exists (json_dumps (JObj (kx :: m))), rest. split; [reflexivity|].
    unfold json_dumps. now rewrite chars_string_of_list_ascii, Hrest.
  - intros x l. destruct (iterencode_list_indented 0 x l) as [rest Hrest].
    exists (json_dumps (JArr (x :: l))), rest. split; [reflexivity|].
    unfold json_dumps. now rewrite chars_string_of_list_ascii, Hrest.
  - reflexivity.
  - intros v Hv. exists (json_dumps v). split; [reflexivity|].
    now apply json_loads_dumps.
  - intros self c r bag Hr Hb. split.
    + intros Hf. now rewrite (proxied_endpoint_eval self c r bag Hr Hb), Hf.
    + intros raw Hf Hp.
      rewrite (proxied_endpoint_eval self c r bag Hr Hb), Hf.
      unfold _deserialize_data. now rewrite Hp.
  - intros self ingress config c r d Hl Hr Hd.
    destruct (relation_Some self c r Hr) as [rs Hrs].
    now rewrite (relay_ingress_request_leader self _ _ c r rs d Hl Hrs Hd).
Qed.

Lemma serialization_and_parsing_failures_witness :
  proxied_endpoint Examples.self (Examples.routed_charm ∅)
  = (inl TypeError, Examples.routed_charm ∅) /\
  proxied_endpoint Examples.self
    (Examples.routed_charm {[ "traefik_route" := "{'a': 1}" ]})
  = (inl JSONDecodeError,
     Examples.routed_charm {[ "traefik_route" := "{'a': 1}" ]}) /\
  (exists text,
     _serialize_data (Json Examples.ingress) = inr text /\
     _deserialize_data (Some text) = inr Examples.ingress) /\
  fst (relay_ingress_request Examples.self
         (Json Examples.ingress) (Json Examples.config)
         (Examples.fresh_charm true)) = inr ().
Proof.
  destruct serialization_and_parsing_failures
    as (_ & _ & _ & Hrt & Hread & Hwrite).
  split; [|split; [|split]].
  - apply (proj1 (Hread Examples.self (Examples.routed_charm ∅)
                    (Examples.a_relation 0 ∅ ∅) ∅
                    ltac:(vm_compute; reflexivity)
                    ltac:(vm_compute; reflexivity))).
    vm_compute. reflexivity.
  - apply (proj2 (Hread Examples.self
                    (Examples.routed_charm {[ "traefik_route" := "{'a': 1}" ]})
                    (Examples.a_relation 0 ∅ {[ "traefik_route" := "{'a': 1}" ]})
                    {[ "traefik_route" := "{'a': 1}" ]}
                    ltac:(vm_compute; reflexivity)
                    ltac:(vm_compute; reflexivity)) "{'a': 1}").
    + vm_compute. reflexivity.
    + vm_compute. reflexivity.
  - apply Hrt. exact wf_json_ingress.
  - apply (Hwrite Examples.self Examples.ingress Examples.config
             (Examples.fresh_charm true) (Examples.a_relation 0 ∅ ∅) ∅).
    + reflexivity.
    + vm_compute. reflexivity.
    + vm_compute. reflexivity.
Defined.

(** ** The provider *)

Section Provider.
Variable event : RelationEvent.

Lemma fold_record_names (f : string -> TraceItem) names : forall fw,
  let fw' := fold_left (fun fw name => record (f name) fw) names fw in
  trace fw' = trace fw ++ map f names /\
  request_observers fw' = request_observers fw /\
  ready_observers fw' = ready_observers fw.
Proof.
  induction names as [|n names IH]; intros fw; cbn [fold_left map].
  - now rewrite app_nil_r.
  - destruct (IH (record (f n) fw)) as (Ht & Hq & Hr).
    cbn zeta. rewrite Ht, Hq, Hr. cbn [record trace request_observers ready_observers].
    now rewrite <- app_assoc.
Qed.

Lemma emit_request_trace fw :
  trace (emit_request (relation_of event) fw) =
  trace fw ++ Emitted on_request event ::
    map (fun name => Handled name on_request event) (request_observers fw).
Proof.
  unfold emit_request. destruct event as [rel]. cbn [relation_of].
  destruct (fold_record_names
              (fun name => Handled name on_request {| relation_of := rel |})
              (request_observers fw)
              (record (Emitted on_request {| relation_of := rel |}) fw))
    as (Ht & _). cbn zeta in Ht.
  cbn zeta. rewrite Ht. cbn [record trace request_observers].
  now rewrite <- app_assoc.
Qed.

End Provider.

(** C4: the constructor looks up [self.on.ready] before it registers the
    handler.  When [CharmEvents] declares no event named [ready], as the
    one of ops does, the lookup raises [AttributeError]: the framework is
    left as it was and the handler observes nothing, so that no [ready]
    is re-emitted as [request]. *)
Theorem provider_init_raises (charm_events : list string) (fw : Framework) :
  "ready" ∉ charm_events ->
  TraefikRouteProvider_init charm_events fw = (inl AttributeError, fw).
Proof.
  intros Hno. unfold TraefikRouteProvider_init, getattr_on_ready.
  rewrite bool_decide_eq_false_2; [reflexivity|].
  unfold declared_events. rewrite elem_of_cons.
  intros [Heq|Hin]; [discriminate|contradiction].
Qed.

Lemma provider_init_raises_witness :
  TraefikRouteProvider_init Examples.ops_charm_events Examples.a_framework
  = (inl AttributeError, Examples.a_framework).
Proof.
  apply (provider_init_raises Examples.ops_charm_events Examples.a_framework).
  intros Hin. apply list_elem_of_In in Hin. cbn in Hin.
  repeat (destruct Hin as [Hin|Hin]; [discriminate|]). exact Hin.
Defined.

(** * Further properties of the library *)

(** ** The URL accessor: error and edge behaviour *)

(** X1: the URL accessor only reads: whatever it returns or raises, the
    state after it is the state before it. *)
Theorem proxied_endpoint_read_only
    (self : TraefikRouteRequirer) (c : Charm) :
  snd (proxied_endpoint self c) = c.
Proof.
  unfold proxied_endpoint, bind, get_charm, lift, ret.
  destruct (getattr_data (relation self c)) as [e|data]; [reflexivity|].
  destruct (getattr_app (relation self c)) as [e|owner]; [reflexivity|].
  destruct (getitem data owner) as [e|bag]; [reflexivity|].
  destruct (_deserialize_data (bag !! "traefik_route")) as [e|v]; [reflexivity|].
  destruct (py_get v (unit_name (unit c)) (JObj [])) as [e|entry]; [reflexivity|].
  now destruct (py_get entry "url" JNull).
Qed.

(** X2: with no relation on the endpoint, the URL accessor raises
    [AttributeError]: [self.relation] is [None]. *)
Theorem proxied_endpoint_no_relation
    (self : TraefikRouteRequirer) (c : Charm) :
  (relations c !! _endpoint self = None \/
   relations c !! _endpoint self = Some []) ->
  proxied_endpoint self c = (inl AttributeError, c).
Proof.
  intros Hrs. unfold proxied_endpoint, bind, get_charm, lift, relation.
  destruct Hrs as [H|H]; now rewrite H.
Qed.

Lemma proxied_endpoint_no_relation_witness :
  proxied_endpoint Examples.self (Examples.lonely_charm false)
  = (inl AttributeError, Examples.lonely_charm false).
Proof.
  apply (proxied_endpoint_no_relation Examples.self
           (Examples.lonely_charm false)).
  left. vm_compute. reflexivity.
Defined.

(** X3: when the inbound field holds valid JSON that is no mapping (a list,
    a string, a number, [null]), the URL accessor raises [AttributeError]:
    the parsed value has no [get]. *)
Theorem proxied_endpoint_not_a_mapping
    (self : TraefikRouteRequirer) (c : Charm) (r : Relation)
    (bag : gmap string string) (raw : string) (data : json) :
  relation self c = Some r ->
  rel_data r !! rel_app r = Some bag ->
  bag !! "traefik_route" = Some raw ->
  json_loads (Some raw) = inr data ->
  (forall m, data <> JObj m) ->
  proxied_endpoint self c = (inl AttributeError, c).
Proof.
  intros Hr Hb Hf Hp Hm.
  rewrite (proxied_endpoint_eval self c r bag Hr Hb), Hf.
  unfold _deserialize_data. rewrite Hp.
  destruct data; try reflexivity. now destruct (Hm m).
Qed.

Lemma proxied_endpoint_not_a_mapping_witness :
  proxied_endpoint Examples.self
    (Examples.routed_charm {[ "traefik_route" := "[1, 2]" ]})
  = (inl AttributeError,
     Examples.routed_charm {[ "traefik_route" := "[1, 2]" ]}).
Proof.
  apply (proxied_endpoint_not_a_mapping Examples.self _
           (Examples.a_relation 0 ∅ {[ "traefik_route" := "[1, 2]" ]})
           {[ "traefik_route" := "[1, 2]" ]} "[1, 2]"
           (JArr [JInt 1; JInt 2])).
  - vm_compute. reflexivity.
  - vm_compute. reflexivity.
  - vm_compute. reflexivity.
  - vm_compute. reflexivity.
  - discriminate.
Defined.

(** X4: when the unit's name is a key of the parsed mapping but its entry
    is no mapping (a bare URL string, [null]), the URL accessor raises
    [AttributeError]: the default [{}] only stands in for a missing key. *)
Theorem proxied_endpoint_entry_not_a_mapping
    (self : TraefikRouteRequirer) (c : Charm) (r : Relation)
    (bag : gmap string string) (raw : string)
    (m : list (string * json)) (entry : json) :
  relation self c = Some r ->
  rel_data r !! rel_app r = Some bag ->
  bag !! "traefik_route" = Some raw ->
  json_loads (Some raw) = inr (JObj m) ->
  dict_get (unit_name (unit c)) m = Some entry ->
  (forall e, entry <> JObj e) ->
  proxied_endpoint self c = (inl AttributeError, c).
Proof.
  intros Hr Hb Hf Hp Hu He.
  rewrite (proxied_endpoint_eval self c r bag Hr Hb), Hf.
  unfold _deserialize_data. rewrite Hp. cbn [py_get]. rewrite Hu.
  destruct entry; try reflexivity. now destruct (He m0).
Qed.

Lemma proxied_endpoint_entry_not_a_mapping_witness :
  proxied_endpoint Examples.self
    (Examples.routed_charm
       {[ "traefik_route" := json_dumps Examples.flat_routes ]})
  = (inl AttributeError,
     Examples.routed_charm
       {[ "traefik_route" := json_dumps Examples.flat_routes ]}).
Proof.
  apply (proxied_endpoint_entry_not_a_mapping Examples.self _
           (Examples.a_relation 0 ∅
              {[ "traefik_route" := json_dumps Examples.flat_routes ]})
           {[ "traefik_route" := json_dumps Examples.flat_routes ]}
           (json_dumps Examples.flat_routes)
           [("traefik-route-k8s/0", JStr Examples.a_url)]
           (JStr Examples.a_url)).
  - vm_compute. reflexivity.
  - vm_compute. reflexivity.
  - vm_compute. reflexivity.
  - vm_compute. reflexivity.
  - vm_compute. reflexivity.
  - discriminate.
Defined.

(** X5: when the inbound field holds the serialization of a mapping of
    units to entries, the URL accessor of a unit returns the value stored
    under [url] in that unit's entry, whatever the other units, the other
    keys of the entry and the type of the value: nothing is validated. *)
Theorem proxied_endpoint_of_routes
    (self : TraefikRouteRequirer) (c : Charm) (r : Relation)
    (bag : gmap string string)
    (m e : list (string * json)) (v : json) (text : string) :
  wf_json (JObj m) ->
  relation self c = Some r ->
  rel_data r !! rel_app r = Some bag ->
  _serialize_data (Json (JObj m)) = inr text ->
  bag !! "traefik_route" = Some text ->
  dict_get (unit_name (unit c)) m = Some (JObj e) ->
  dict_get "url" e = Some v ->
  proxied_endpoint self c = (inr v, c).
Proof.
  intros Hwf Hr Hb Hs Hf Hu He. injection Hs as <-.
  rewrite (proxied_endpoint_eval self c r bag Hr Hb), Hf.
  unfold _deserialize_data.
  rewrite json_loads_dumps by exact Hwf.
  cbn [py_get]. rewrite Hu. cbn [py_get]. now rewrite He.
Qed.

Lemma wf_json_two_routes : wf_json Examples.two_routes.
Proof.
  cbn. repeat split;
    refine (bool_decide_unpack _ _); vm_compute; exact I.
Qed.

Lemma proxied_endpoint_of_routes_witness :
  proxied_endpoint Examples.self
    (Examples.routed_charm
       {[ "traefik_route" := json_dumps Examples.two_routes ]})
  = (inr (JStr Examples.a_url),
     Examples.routed_charm
       {[ "traefik_route" := json_dumps Examples.two_routes ]}).
Proof.
  apply (proxied_endpoint_of_routes Examples.self _
           (Examples.a_relation 0 ∅
              {[ "traefik_route" := json_dumps Examples.two_routes ]})
           {[ "traefik_route" := json_dumps Examples.two_routes ]}
           [("other/0", JObj [("url", JInt 8080)]);
            ("traefik-route-k8s/0",
             JObj [("url", JStr Examples.a_url); ("port", JInt 80)])]
           [("url", JStr Examples.a_url); ("port", JInt 80)]
           (JStr Examples.a_url)
           (json_dumps Examples.two_routes)).
  - exact wf_json_two_routes.
  - vm_compute. reflexivity.
  - vm_compute. reflexivity.
  - reflexivity.
  - vm_compute. reflexivity.
  - vm_compute. reflexivity.
  - vm_compute. reflexivity.
Defined.

(** ** Publish: outcomes, composition and frame *)

Section Publish.
Variable self : TraefikRouteRequirer.
Variables ingress config : pyobject.

(** The ways a publish can go: three failures before anything is
    serialized, or the serializations and assignments of the source. *)
Lemma relay_ingress_request_cases c :
  (is_leader (unit c) = false /\
   relay_ingress_request self ingress config c = (inl UnauthorizedError, c)) \/
  (is_leader (unit c) = true /\ relation self c = None /\
   relay_ingress_request self ingress config c = (inl AttributeError, c)) \/
  (is_leader (unit c) = true /\
   (exists r, relation self c = Some r /\ rel_data r !! app c = None) /\
   relay_ingress_request self ingress config c = (inl KeyError, c)) \/
  (is_leader (unit c) = true /\
   exists r rs d,
     relations c !! _endpoint self = Some (r :: rs) /\
     rel_data r !! app c = Some d /\
     relay_ingress_request self ingress config c =
       match _serialize_data config with
       | inl e => (inl e, c)
       | inr config_text =>
           match _serialize_data ingress with
           | inl e =>
               (inl e,
                with_databag (_endpoint self) (app c) r rs
                  (<["config" := config_text]> d) c)
           | inr ingress_text =>
               (inr (),
                with_databag (_endpoint self) (app c) r rs
                  (<["ingress" := ingress_text]>
                     (<["config" := config_text]> d)) c)
           end
       end).
Proof.
  destruct (is_leader (unit c)) eqn:Hl.
  - right. destruct (relation self c) as [r|] eqn:Hr.
    + right. destruct (relation_Some self c r Hr) as [rs Hrs].
      destruct (rel_data r !! app c) as [d|] eqn:Hd.
      * right. split; [reflexivity|]. exists r, rs, d.
        split; [exact Hrs|split; [exact Hd|]].
        now apply relay_ingress_request_run.
      * left. split; [reflexivity|split; [now exists r|]].
        unfold relay_ingress_request, bind, get_charm, lift.
        rewrite Hl, Hr. cbn [negb getattr_data]. unfold getitem.
        now rewrite Hd.
    + left. split; [reflexivity|split; [reflexivity|]].
      unfold relay_ingress_request, bind, get_charm, lift.
      now rewrite Hl, Hr.
  - left. split; [reflexivity|].
    now apply relay_ingress_request_not_leader'.
Qed.

End Publish.

(** X6: a publish that raises has assigned at most the field [config].
    The state after it is the state before it, unless the exception is
    the one that the serialization of [ingress] raised: [config] had been
    serialized and assigned by then, and stays assigned. *)
Theorem relay_ingress_request_failure_partial_write
    (self : TraefikRouteRequirer) (ingress config : pyobject)
    (c c' : Charm) (e : exn) :
  relay_ingress_request self ingress config c = (inl e, c') ->
  c' = c \/
  exists r rs d config_text,
    relations c !! _endpoint self = Some (r :: rs) /\
    rel_data r !! app c = Some d /\
    _serialize_data config = inr config_text /\
    _serialize_data ingress = inl e /\
    c' = with_databag (_endpoint self) (app c) r rs
           (<["config" := config_text]> d) c.
Proof.
  intros H.
  destruct (relay_ingress_request_cases self ingress config c)
    as [(_ & Hrun)|[(_ & _ & Hrun)|[(_ & _ & Hrun)
                                   |(_ & r & rs & d & Hrs & Hd & Hrun)]]];
    rewrite Hrun in H; try (left; congruence).
  destruct (_serialize_data config) as [e1|config_text] eqn:Hc;
    [left; congruence|].
  destruct (_serialize_data ingress) as [e2|ingress_text] eqn:Hi;
    [|discriminate].
  right. injection H as -> <-. now exists r, rs, d, config_text.
Qed.

Lemma relay_ingress_request_failure_partial_write_witness :
  with_databag "traefik_route" "traefik-route-k8s"
    (Examples.a_relation 0 ∅ ∅) []
    {[ "config" := json_dumps Examples.config ]} (Examples.fresh_charm true)
  = Examples.fresh_charm true \/
  exists r rs d config_text,
    relations (Examples.fresh_charm true) !! _endpoint Examples.self
    = Some (r :: rs) /\
    rel_data r !! app (Examples.fresh_charm true) = Some d /\
    _serialize_data (Json Examples.config) = inr config_text /\
    _serialize_data Unserializable = inl TypeError /\
    with_databag "traefik_route" "traefik-route-k8s"
      (Examples.a_relation 0 ∅ ∅) []
      {[ "config" := json_dumps Examples.config ]} (Examples.fresh_charm true)
    = with_databag (_endpoint Examples.self) (app (Examples.fresh_charm true))
        r rs (<["config" := config_text]> d) (Examples.fresh_charm true).
Proof.
  apply (relay_ingress_request_failure_partial_write Examples.self
           Unserializable (Json Examples.config)
           (Examples.fresh_charm true)).
  vm_compute. reflexivity.
Defined.

(** X7: a publish returns normally exactly when the unit is the leader,
    the endpoint has a relation whose data holds the databag of the
    caller's application, and both arguments can be serialized. *)
Theorem relay_ingress_request_succeeds_iff
    (self : TraefikRouteRequirer) (ingress config : pyobject) (c : Charm) :
  fst (relay_ingress_request self ingress config c) = inr () <->
  is_leader (unit c) = true /\
  (exists r, relation self c = Some r /\ is_Some (rel_data r !! app c)) /\
  (exists text, _serialize_data config = inr text) /\
  (exists text, _serialize_data ingress = inr text).
Proof.
  destruct (relay_ingress_request_cases self ingress config c)
    as [(Hl & Hrun)|[(Hl & Hr & Hrun)|[(Hl & (r & Hr & Hd) & Hrun)
                                      |(Hl & r & rs & d & Hrs & Hd & Hrun)]]];
    rewrite Hrun; cbn [fst]; split.
  - discriminate.
  - intros [Hl' _]. congruence.
  - discriminate.
  - intros (_ & (r & Hr' & _) & _). congruence.
  - discriminate.
  - intros (_ & (r' & Hr' & Hs) & _). rewrite Hr in Hr'. injection Hr' as <-.
    rewrite Hd in Hs. now destruct Hs.
  - intros Hok. split; [exact Hl|]. split.
    + exists r. split; [unfold relation; now rewrite Hrs|].
      rewrite Hd. now eexists.
    + destruct (_serialize_data config) as [e|ct]; [discriminate|].
      destruct (_serialize_data ingress) as [e|it]; [discriminate|].
      split; eexists; reflexivity.
  - intros (_ & _ & (ct & ->) & (it & ->)). reflexivity.
Qed.

Lemma relay_ingress_request_succeeds_iff_witness :
  fst (relay_ingress_request Examples.self
         (Json Examples.ingress) (Json Examples.config)
         (Examples.fresh_charm true)) = inr ().
Proof.
  apply (proj2 (relay_ingress_request_succeeds_iff Examples.self
                  (Json Examples.ingress) (Json Examples.config)
                  (Examples.fresh_charm true))).
  split; [reflexivity|]. split; [|split].
  - exists (Examples.a_relation 0 ∅ ∅). split.
    + vm_compute. reflexivity.
    + exists ∅. vm_compute. reflexivity.
  - eexists. reflexivity.
  - eexists. reflexivity.
Defined.

Lemma insert_two_twice (d : gmap string string) (a b a' b' : string) :
  <["ingress" := a']> (<["config" := b']>
    (<["ingress" := a]> (<["config" := b]> d))) =
  <["ingress" := a']> (<["config" := b']> d).
Proof.
  apply map_eq. intros k. rewrite !lookup_insert.
  repeat case_decide; congruence.
Qed.

(** X8: the last publish wins: a publish that follows another one has the
    outcome and leaves the state it would have had on its own.  In
    particular publishing the same arguments twice is publishing them
    once. *)
Theorem relay_ingress_request_last_wins
    (self : TraefikRouteRequirer) (ingress1 config1 ingress2 config2 : json)
    (c : Charm) :
  relay_ingress_request self (Json ingress2) (Json config2)
    (snd (relay_ingress_request self (Json ingress1) (Json config1) c)) =
  relay_ingress_request self (Json ingress2) (Json config2) c.
Proof.
  destruct (relay_ingress_request_cases self (Json ingress1) (Json config1) c)
    as [(_ & Hrun)|[(_ & _ & Hrun)|[(_ & _ & Hrun)
                                   |(Hl & r & rs & d & Hrs & Hd & Hrun)]]];
    rewrite Hrun; cbn [snd]; try reflexivity.
  cbn [_serialize_data dumps snd].
  rewrite (relay_ingress_request_leader self ingress2 config2 c r rs d Hl Hrs Hd).
  erewrite relay_ingress_request_leader;
    [|exact Hl
     |unfold with_databag; cbn [relations]; apply lookup_insert_eq
     |cbn [rel_data]; apply lookup_insert_eq].
  unfold with_databag.
  cbn [unit Ops.app relations rel_name rel_id rel_app rel_data].
  now rewrite !insert_insert_eq, insert_two_twice.
Qed.

(** A publish whose [ingress] cannot be serialized: [TypeError] is raised
    after [config] has been written. *)
Lemma relay_ingress_request_partial_write_example :
  relay_ingress_request Examples.self Unserializable (Json Examples.config)
    (Examples.fresh_charm true)
  = (inl TypeError,
     with_databag "traefik_route" "traefik-route-k8s"
       (Examples.a_relation 0 ∅ ∅) []
       {[ "config" := json_dumps Examples.config ]}
       (Examples.fresh_charm true)).
Proof. vm_compute. reflexivity. Qed.

Lemma proxied_endpoint_with_databag
    (self : TraefikRouteRequirer) (c : Charm) (r : Relation)
    (rs : list Relation) (d d' : gmap string string) :
  relations c !! _endpoint self = Some (r :: rs) ->
  rel_data r !! app c = Some d ->
  d' !! "traefik_route" = d !! "traefik_route" ->
  fst (proxied_endpoint self
         (with_databag (_endpoint self) (app c) r rs d' c)) =
  fst (proxied_endpoint self c).
Proof.
  intros Hrs Hd Hsame.
  unfold proxied_endpoint, bind, get_charm, lift, ret, relation, with_databag.
  cbn [relations unit]. rewrite lookup_insert_eq, Hrs.
  cbn [getattr_data getattr_app rel_data rel_app]. unfold getitem.
  destruct (decide (app c = rel_app r)) as [Heq|Hne].
  - rewrite <- Heq, lookup_insert_eq, Hd, Hsame.
    destruct (_deserialize_data (d !! "traefik_route")) as [e|v]; [reflexivity|].
    destruct (py_get v (unit_name (unit c)) (JObj [])) as [e|entry]; [reflexivity|].
    now destruct (py_get entry "url" JNull).
  - rewrite lookup_insert_ne by exact Hne.
    destruct (rel_data r !! rel_app r) as [bag|]; [|reflexivity].
    destruct (_deserialize_data (bag !! "traefik_route")) as [e|v]; [reflexivity|].
    destruct (py_get v (unit_name (unit c)) (JObj [])) as [e|entry]; [reflexivity|].
    now destruct (py_get entry "url" JNull).
Qed.

(** X9: a publish does not change what the URL accessor gives: the
    accessor reads the field [traefik_route], which a publish never
    writes, even when the relation's remote application is the caller's
    own application and both use one databag, and even when the publish
    raises after it has written [config]. *)
Theorem relay_ingress_request_keeps_proxied_endpoint
    (self : TraefikRouteRequirer) (ingress config : pyobject) (c : Charm) :
  fst (proxied_endpoint self
         (snd (relay_ingress_request self ingress config c))) =
  fst (proxied_endpoint self c).
Proof.
  destruct (relay_ingress_request_cases self ingress config c)
    as [(_ & Hrun)|[(_ & _ & Hrun)|[(_ & _ & Hrun)
                                   |(Hl & r & rs & d & Hrs & Hd & Hrun)]]];
    rewrite Hrun; cbn [snd]; try reflexivity.
  destruct (_serialize_data config) as [e|config_text]; [reflexivity|].
  destruct (_serialize_data ingress) as [e|ingress_text]; cbn [snd];
    apply (proxied_endpoint_with_databag self c r rs d _ Hrs Hd);
    now rewrite !lookup_insert_ne by discriminate.
Qed.

(** X10: a publish touches one databag only.  The unit, the application
    and the relations of every other endpoint stay as they were; on the
    endpoint itself the number of relations, and the name, the id, the
    remote application and every other entity's databag of the first
    relation stay as they were. *)
Theorem relay_ingress_request_frame_model
    (self : TraefikRouteRequirer) (ingress config : pyobject) (c : Charm) :
  let c' := snd (relay_ingress_request self ingress config c) in
  unit c' = unit c /\
  app c' = app c /\
  (forall endpoint, endpoint <> _endpoint self ->
     relations c' !! endpoint = relations c !! endpoint) /\
  (forall r rs, relations c !! _endpoint self = Some (r :: rs) ->
     exists r',
       relations c' !! _endpoint self = Some (r' :: rs) /\
       rel_name r' = rel_name r /\
       rel_id r' = rel_id r /\
       rel_app r' = rel_app r /\
       forall owner, owner <> app c ->
         rel_data r' !! owner = rel_data r !! owner).
Proof.
  assert (Hsame : unit c = unit c /\ app c = app c /\
    (forall endpoint, endpoint <> _endpoint self ->
       relations c !! endpoint = relations c !! endpoint) /\
    (forall r rs, relations c !! _endpoint self = Some (r :: rs) ->
       exists r',
         relations c !! _endpoint self = Some (r' :: rs) /\
         rel_name r' = rel_name r /\ rel_id r' = rel_id r /\
         rel_app r' = rel_app r /\
         forall owner, owner <> app c ->
           rel_data r' !! owner = rel_data r !! owner)).
  { repeat split; try reflexivity. intros r0 rs0 H0. exists r0.
    repeat split; assumption || reflexivity. }
  assert (Hwritten : forall r rs d',
    relations c !! _endpoint self = Some (r :: rs) ->
    let c' := with_databag (_endpoint self) (app c) r rs d' c in
    unit c' = unit c /\ app c' = app c /\
    (forall endpoint, endpoint <> _endpoint self ->
       relations c' !! endpoint = relations c !! endpoint) /\
    (forall r0 rs0, relations c !! _endpoint self = Some (r0 :: rs0) ->
       exists r',
         relations c' !! _endpoint self = Some (r' :: rs0) /\
         rel_name r' = rel_name r0 /\ rel_id r' = rel_id r0 /\
         rel_app r' = rel_app r0 /\
         forall owner, owner <> app c ->
           rel_data r' !! owner = rel_data r0 !! owner)).
  { intros r rs d' Hrs. unfold with_databag. cbv zeta.
    cbn [unit Ops.app relations]. repeat split.
    - intros endpoint Hne. now rewrite lookup_insert_ne by congruence.
    - intros r0 rs0 H0. rewrite Hrs in H0. injection H0 as <- <-.
      eexists. rewrite lookup_insert_eq. split; [reflexivity|].
      cbn [rel_name rel_id rel_app rel_data]. repeat split.
      intros owner Hne. now rewrite lookup_insert_ne by congruence. }
  destruct (relay_ingress_request_cases self ingress config c)
    as [(_ & Hrun)|[(_ & _ & Hrun)|[(_ & _ & Hrun)
                                   |(Hl & r & rs & d & Hrs & Hd & Hrun)]]];
    rewrite Hrun; cbn [snd]; cbv zeta; try exact Hsame.
  destruct (_serialize_data config) as [e|config_text]; [exact Hsame|].
  destruct (_serialize_data ingress) as [e|ingress_text]; cbn [snd];
    now apply Hwritten.
Qed.

Lemma relay_ingress_request_frame_model_witness :
  exists r',
    relations (snd (relay_ingress_request Examples.self
                      (Json Examples.ingress) (Json Examples.config)
                      Examples.two_relations_charm))
      !! _endpoint Examples.self
    = Some [r'; Examples.a_relation 1 ∅ ∅] /\
    rel_name r' = rel_name (Examples.a_relation 0 ∅ ∅) /\
    rel_id r' = rel_id (Examples.a_relation 0 ∅ ∅) /\
    rel_app r' = rel_app (Examples.a_relation 0 ∅ ∅) /\
    forall owner, owner <> app Examples.two_relations_charm ->
      rel_data r' !! owner = rel_data (Examples.a_relation 0 ∅ ∅) !! owner.
Proof.
  apply (proj2 (proj2 (proj2
           (relay_ingress_request_frame_model Examples.self
              (Json Examples.ingress) (Json Examples.config)
              Examples.two_relations_charm)))
           (Examples.a_relation 0 ∅ ∅) [Examples.a_relation 1 ∅ ∅]).
  vm_compute. reflexivity.
Defined.

(** ** The provider's handler *)

Lemma emit_request_observers event fw :
  ready_observers (emit_request (relation_of event) fw) = ready_observers fw /\
  request_observers (emit_request (relation_of event) fw) = request_observers fw.
Proof.
  unfold emit_request.
  destruct (fold_record_names
              (fun name => Handled name on_request
                             {| relation_of := relation_of event |})
              (request_observers fw)
              (record (Emitted on_request
                         {| relation_of := relation_of event |}) fw))
    as (_ & Hq & Hr).
  cbn zeta in *. now rewrite Hq, Hr.
Qed.

(** X12: the provider's handler, called with a relation event, emits one
    [request] event carrying the relation of that event, hands it to the
    observers of [request] in registration order, and leaves the
    observers as they were. *)
Theorem emit_request_event_forwards (event : RelationEvent) (fw : Framework) :
  trace (_emit_request_event event fw) =
    trace fw ++ Emitted on_request event ::
    map (fun name => Handled name on_request event) (request_observers fw) /\
  ready_observers (_emit_request_event event fw) = ready_observers fw /\
  request_observers (_emit_request_event event fw) = request_observers fw.
Proof.
  unfold _emit_request_event. split.
  - apply emit_request_trace.
  - apply emit_request_observers.
Qed.

(** ** Serialization *)

(** X13: serialization tells values apart: two well-formed values with the
    same serialization are the same value. *)
Theorem serialize_data_injective (v1 v2 : json) :
  wf_json v1 -> wf_json v2 ->
  _serialize_data (Json v1) = _serialize_data (Json v2) ->
  v1 = v2.
Proof.
  intros H1 H2 Heq. injection Heq as Heq.
  pose proof (json_loads_dumps v1 H1) as L1.
  pose proof (json_loads_dumps v2 H2) as L2.
  rewrite Heq in L1. congruence.
Qed.

Lemma serialize_data_injective_witness : Examples.ingress = Examples.ingress.
Proof.
  apply (serialize_data_injective Examples.ingress Examples.ingress).
  - exact wf_json_ingress.
  - exact wf_json_ingress.
  - reflexivity.
Defined.

Lemma escape_char_plain c : forallb is_plain (escape_char c) = true.
Proof. destruct c as [[] [] [] [] [] [] [] []]; reflexivity. Qed.

Lemma forallb_flat_map {A B} (p : B -> bool) (f : A -> list B) l :
  (forall x, In x l -> forallb p (f x) = true) ->
  forallb p (flat_map f l) = true.
Proof.
  induction l as [|x l IH]; intros H; [reflexivity|].
  cbn [flat_map]. rewrite forallb_app, H, IH; [reflexivity| |now left].
  intros y Hy. apply H. now right.
Qed.

Lemma encode_basestring_ascii_plain s :
  forallb is_plain (encode_basestring_ascii s) = true.
Proof.
  unfold encode_basestring_ascii. cbn [forallb]. rewrite forallb_app.
  rewrite forallb_flat_map by (intros; apply escape_char_plain).
  reflexivity.
Qed.

Lemma uint_chars_plain u : forallb is_plain (uint_chars u) = true.
Proof. induction u; cbn [uint_chars forallb]; try rewrite IHu; reflexivity. Qed.

Lemma int_repr_plain z : forallb is_plain (int_repr z) = true.
Proof.
  unfold int_repr. destruct (Z.to_int z); cbn [forallb];
    now rewrite uint_chars_plain.
Qed.

Lemma newline_indent_plain level :
  forallb is_plain (newline_indent level) = true.
Proof.
  unfold newline_indent. cbn [forallb].
  induction (2 * level)%nat as [|n IH]; [reflexivity|exact IH].
Qed.

Lemma iterencode_plain : forall v level,
  forallb is_plain (_iterencode level v) = true.
Proof.
  induction v as [|b|z|s|l Hl|m Hm] using json_ind'; intros level.
  - reflexivity.
  - now destruct b.
  - apply int_repr_plain.
  - apply encode_basestring_ascii_plain.
  - destruct l as [|x l]; [reflexivity|].
    inversion Hl as [|? ? Hx Hl']; subst.
    cbn [_iterencode forallb]. rewrite !forallb_app.
    rewrite !newline_indent_plain, Hx. cbn [andb forallb].
    rewrite forallb_flat_map; [reflexivity|].
    intros y Hy. cbn [forallb]. rewrite forallb_app, newline_indent_plain.
    rewrite Forall_forall in Hl'. rewrite Hl' by now apply list_elem_of_In.
    reflexivity.
  - destruct m as [|kx m]; [reflexivity|].
    inversion Hm as [|? ? Hx Hm']; subst.
    cbn [_iterencode forallb]. rewrite !forallb_app.
    rewrite !newline_indent_plain, encode_basestring_ascii_plain, Hx.
    cbn [andb forallb chars list_ascii_of_string].
    rewrite forallb_flat_map; [reflexivity|].
    intros y Hy. cbn [forallb]. rewrite !forallb_app, newline_indent_plain.
    rewrite encode_basestring_ascii_plain.
    rewrite Forall_forall in Hm'. rewrite Hm' by now apply list_elem_of_In.
    reflexivity.
Qed.

(** X14: a serialization holds newlines and printable ASCII characters
    only: every other character of a string is written as an escape. *)
Theorem serialize_data_plain (data : pyobject) (text : string) :
  _serialize_data data = inr text ->
  forallb is_plain (chars text) = true.
Proof.
  destruct data as [v| |]; try discriminate. intros [= <-].
  unfold json_dumps. rewrite chars_string_of_list_ascii.
  apply iterencode_plain.
Qed.

Lemma serialize_data_plain_witness :
  forallb is_plain (chars (json_dumps Examples.two_routes)) = true.
Proof.
  apply (serialize_data_plain (Json Examples.two_routes)
           (json_dumps Examples.two_routes)).
  reflexivity.
Defined.

(** ** Requirers bound to different endpoints *)

(** A publish on one endpoint goes the same way whatever the relations of
    another endpoint are, and leaves them as they are. *)
Lemma relay_ingress_request_other_endpoint
    (self : TraefikRouteRequirer) (ingress config : pyobject) (c : Charm)
    (endpoint : string) (rels : list Relation) :
  endpoint <> _endpoint self ->
  relay_ingress_request self ingress config
    {| unit := unit c; app := app c;
       relations := <[endpoint := rels]> (relations c) |} =
  (fst (relay_ingress_request self ingress config c),
   {| unit := unit (snd (relay_ingress_request self ingress config c));
      app := app (snd (relay_ingress_request self ingress config c));
      relations :=
        <[endpoint := rels]>
          (relations (snd (relay_ingress_request self ingress config c))) |}).
Proof.
  intros Hne.
  set (c0 := {| unit := unit c; app := app c;
                relations := <[endpoint := rels]> (relations c) |}).
  assert (Hlook : relations c0 !! _endpoint self = relations c !! _endpoint self)
    by (cbn [c0 relations]; now rewrite lookup_insert_ne).
  assert (Hrel : relation self c0 = relation self c)
    by (unfold relation; now rewrite Hlook).
  destruct (relay_ingress_request_cases self ingress config c)
    as [(Hl & Hrun)|[(Hl & Hr & Hrun)|[(Hl & (r & Hr & Hd) & Hrun)
                                      |(Hl & r & rs & d & Hrs & Hd & Hrun)]]];
    rewrite Hrun; cbn [fst snd].
  - now rewrite relay_ingress_request_not_leader'.
  - unfold relay_ingress_request, bind, get_charm, lift.
    change (unit c0) with (unit c). now rewrite Hl, Hrel, Hr.
  - unfold relay_ingress_request, bind, get_charm, lift.
    change (unit c0) with (unit c). rewrite Hl, Hrel, Hr.
    cbn [negb getattr_data]. unfold getitem.
    change (Ops.app c0) with (Ops.app c). now rewrite Hd.
  - rewrite (relay_ingress_request_run self ingress config c0 r rs d);
      [|exact Hl|now rewrite Hlook|exact Hd].
    destruct (_serialize_data config) as [e|config_text]; [reflexivity|].
    destruct (_serialize_data ingress) as [e|ingress_text];
      cbn [fst snd]; unfold with_databag;
      cbn [c0 unit Ops.app relations];
      now rewrite insert_insert_ne by congruence.
Qed.

(** X15: requirers bound to different endpoints do not interfere: a
    publish through one has the outcome it would have had without an
    earlier publish through the other, and the two publishes leave the
    same state in either order. *)
Theorem relay_ingress_request_endpoints_commute
    (self1 self2 : TraefikRouteRequirer)
    (ingress1 config1 ingress2 config2 : pyobject) (c : Charm) :
  _endpoint self1 <> _endpoint self2 ->
  fst (relay_ingress_request self2 ingress2 config2
         (snd (relay_ingress_request self1 ingress1 config1 c))) =
  fst (relay_ingress_request self2 ingress2 config2 c) /\
  snd (relay_ingress_request self2 ingress2 config2
         (snd (relay_ingress_request self1 ingress1 config1 c))) =
  snd (relay_ingress_request self1 ingress1 config1
         (snd (relay_ingress_request self2 ingress2 config2 c))).
Proof.
  intros Hne.
  assert (Hne' : _endpoint self2 <> _endpoint self1) by congruence.
  (* the state after a publish is the state before it, or differs from it
     in the relations of the publisher's endpoint *)
  assert (Hshape : forall self ingress config,
    snd (relay_ingress_request self ingress config c) = c \/
    exists rels,
      snd (relay_ingress_request self ingress config c) =
      {| unit := unit c; app := app c;
         relations := <[_endpoint self := rels]> (relations c) |}).
  { intros self ingress config.
    destruct (relay_ingress_request_cases self ingress config c)
      as [(_ & Hrun)|[(_ & _ & Hrun)|[(_ & _ & Hrun)
                                     |(_ & r & rs & d & _ & _ & Hrun)]]];
      rewrite Hrun; cbn [snd]; try (now left).
    destruct (_serialize_data config) as [e|config_text]; [now left|].
    destruct (_serialize_data ingress) as [e|ingress_text]; cbn [snd];
      right; eexists; reflexivity. }
  destruct (Hshape self1 ingress1 config1) as [H1|[rels1 H1]];
    destruct (Hshape self2 ingress2 config2) as [H2|[rels2 H2]].
  - rewrite H1, H2, H1. now split.
  - pose proof (relay_ingress_request_other_endpoint self1 ingress1 config1
                  c (_endpoint self2) rels2 Hne') as E1.
    rewrite H1 in E1. rewrite H1, H2, E1. now split.
  - pose proof (relay_ingress_request_other_endpoint self2 ingress2 config2
                  c (_endpoint self1) rels1 Hne) as E2.
    rewrite H2 in E2. rewrite H1, E2, H2, H1. now split.
  - pose proof (relay_ingress_request_other_endpoint self1 ingress1 config1
                  c (_endpoint self2) rels2 Hne') as E1.
    pose proof (relay_ingress_request_other_endpoint self2 ingress2 config2
                  c (_endpoint self1) rels1 Hne) as E2.
    rewrite H1 in E1. rewrite H2 in E2. rewrite H1, E2, H2, E1.
    cbn [fst snd unit Ops.app relations]. split; [reflexivity|].
    now rewrite insert_insert_ne by congruence.
Qed.

Lemma relay_ingress_request_endpoints_commute_witness :
  fst (relay_ingress_request Examples.other_self
         (Json Examples.ingress) (Json Examples.config)
         (snd (relay_ingress_request Examples.self
                 (Json Examples.ingress) (Json Examples.config)
                 Examples.two_endpoints_charm))) =
  fst (relay_ingress_request Examples.other_self
         (Json Examples.ingress) (Json Examples.config)
         Examples.two_endpoints_charm) /\
  snd (relay_ingress_request Examples.other_self
         (Json Examples.ingress) (Json Examples.config)
         (snd (relay_ingress_request Examples.self
                 (Json Examples.ingress) (Json Examples.config)
                 Examples.two_endpoints_charm))) =
  snd (relay_ingress_request Examples.self
         (Json Examples.ingress) (Json Examples.config)
         (snd (relay_ingress_request Examples.other_self
                 (Json Examples.ingress) (Json Examples.config)
                 Examples.two_endpoints_charm))).
Proof.
  apply (relay_ingress_request_endpoints_commute Examples.self
           Examples.other_self
           (Json Examples.ingress) (Json Examples.config)
           (Json Examples.ingress) (Json Examples.config)
           Examples.two_endpoints_charm).
  discriminate.
Defined.
